(** * The enhanced context cache of the LLM request pipeline

    A shallow embedding of [EnhancedContextCache]
    (app/lib/.server/llm/enhanced-context-cache-service.ts) and the proofs of
    the properties its specification states.

    Modelling conventions.
    - A JavaScript string is a [string]: a sequence of code units in the range
      U+0000..U+00FF.  [String.length] is [.length]; [trim], [toLowerCase]
      and the default order of [Array.prototype.sort] are the ECMAScript ones
      restricted to that range.
    - Numbers that the code only adds, subtracts and compares (timestamps,
      sizes, counters, the configured bounds) are [Z]; the two numbers the
      code divides ([expiresAt], [autoCompressionThreshold]) and the derived
      ratios are exact rationals [Q].  The compression ratio, the only place
      where a division by zero can happen, is a [number] with NaN and the
      infinities.
    - The [Map] holding the entries is an association list in insertion
      order, which is the order [Map.prototype.entries] iterates in.
    - [Date.now()] is read several times by one call; every reading is an
      argument of the embedded function.
    - JSON, pako, Buffer and TextDecoder are libraries the code calls; they
      are the fields of a [Platform] and every definition is parametric in
      it.  A step that can throw returns an [outcome]. *)

From Stdlib Require Import ZArith QArith Qminmax Lqa Lia.
From Stdlib Require Import List String Ascii Bool.
From Stdlib.Strings Require Import Byte.
From Stdlib Require Import DecimalString.
From Stdlib Require Import Permutation.
Import ListNotations.

Set Warnings "-register-all".
Local Open Scope Z_scope.

(** ** Strings *)

(** White space and line terminators of [String.prototype.trim] below U+0100:
    TAB, LF, VT, FF, CR, SPACE and NBSP. *)
Definition is_ws (a : ascii) : bool :=
  let n := N_of_ascii a in
  (((9 <=? n) && (n <=? 13)) || (n =? 32) || (n =? 160))%N.

Fixpoint trimStart (s : string) : string :=
  match s with
  | EmptyString => EmptyString
  | String a r => if is_ws a then trimStart r else s
  end.

Fixpoint trimEnd (s : string) : string :=
  match s with
  | EmptyString => EmptyString
  | String a r =>
      match trimEnd r with
      | EmptyString => if is_ws a then EmptyString else String a EmptyString
      | r' => String a r'
      end
  end.

Definition trim (s : string) : string := trimEnd (trimStart s).

(** Letters with a lower-case partner below U+0100: A-Z and the Latin-1
    capitals U+00C0..U+00DE without the multiplication sign U+00D7. *)
Definition is_upper (a : ascii) : bool :=
  let n := N_of_ascii a in
  (((65 <=? n) && (n <=? 90)) || ((192 <=? n) && (n <=? 222) && negb (n =? 215)))%N.

Definition lower_char (a : ascii) : ascii :=
  if is_upper a then ascii_of_N (N_of_ascii a + 32) else a.

Fixpoint toLowerCase (s : string) : string :=
  match s with
  | EmptyString => EmptyString
  | String a r => String (lower_char a) (toLowerCase r)
  end.

(** Truthiness of a string: every string but the empty one. *)
Definition truthy_string (s : string) : bool := negb (s =? EmptyString)%string.

(** The filter of [generateCacheKey]: [id && id.trim().length > 0]. *)
Definition nonblank (s : string) : bool :=
  truthy_string s && (0 <? Z.of_nat (String.length (trim s))).

(** [Array.prototype.sort()] without a comparator orders strings by code
    units.  That order is total and antisymmetric, so the sorted array does
    not depend on the algorithm; insertion sort stands for it. *)
Fixpoint insert_sorted (x : string) (l : list string) : list string :=
  match l with
  | [] => [x]
  | y :: r => if (x <=? y)%string then x :: l else y :: insert_sorted x r
  end.

Definition sort (l : list string) : list string := fold_right insert_sorted [] l.

(** [arr.slice(-n)] *)
Definition slice_last {A : Type} (n : nat) (l : list A) : list A :=
  skipn (List.length l - n) l.

(** [TextEncoder.encode] / [Buffer.from(str)]: UTF-8, one byte below U+0080
    and two bytes from there to U+00FF. *)
Definition utf8_char (a : ascii) : list byte :=
  let n := N_of_ascii a in
  if (n <? 128)%N then [byte_of_ascii a]
  else [byte_of_ascii (ascii_of_N (192 + n / 64)); byte_of_ascii (ascii_of_N (128 + n mod 64))].

Fixpoint TextEncoder_encode (s : string) : list byte :=
  match s with
  | EmptyString => []
  | String a r => utf8_char a ++ TextEncoder_encode r
  end.

(** ** Values and exceptions *)

Inductive number : Type :=
| Finite (q : Q)
| NaN
| PosInfinity
| NegInfinity.

Inductive jsval : Type :=
| VUndefined
| VNull
| VBool (b : bool)
| VNum (n : number)
| VStr (s : string)
| VArr (items : list jsval)
| VObj (fields : list (string * jsval)).

Definition number_is_zero (n : number) : bool :=
  match n with
  | Finite q => Qeq_bool q 0
  | _ => false
  end.

(** ToBoolean *)
Definition truthy (v : jsval) : bool :=
  match v with
  | VUndefined | VNull => false
  | VBool b => b
  | VNum NaN => false
  | VNum n => negb (number_is_zero n)
  | VStr s => truthy_string s
  | VArr _ | VObj _ => true
  end.

(** [typeof v === 'object'] *)
Definition typeof_object (v : jsval) : bool :=
  match v with
  | VNull | VArr _ | VObj _ => true
  | _ => false
  end.

Fixpoint assoc {V : Type} (k : string) (l : list (string * V)) : option V :=
  match l with
  | [] => None
  | (k', v) :: r => if (k' =? k)%string then Some v else assoc k r
  end.

(** [v?.name] for a name that no prototype defines: the own property of an
    object, [undefined] on everything else. *)
Definition get_prop (v : jsval) (name : string) : jsval :=
  match v with
  | VObj fields => match assoc name fields with Some x => x | None => VUndefined end
  | _ => VUndefined
  end.

(** What a step of the code produces: a value or a thrown error. *)
Inductive outcome (A : Type) : Type :=
| Return (a : A)
| Throw (msg : string).
Arguments Return {A} a.
Arguments Throw {A} msg.

Definition bind {A B : Type} (m : outcome A) (k : A -> outcome B) : outcome B :=
  match m with
  | Return a => k a
  | Throw msg => Throw msg
  end.

(** [try { body } catch (e) { handler }] *)
Definition try_catch {A : Type} (body : outcome A) (handler : string -> A) : A :=
  match body with
  | Return a => a
  | Throw msg => handler msg
  end.

(** [try { body } catch (e) { throw new Error(prefix + e) }] *)
Definition rethrow {A : Type} (body : outcome A) (prefix : string) : outcome A :=
  match body with
  | Return a => Return a
  | Throw msg => Throw (prefix ++ msg)%string
  end.

Notation "x <- m ;; k" := (bind m (fun x => k))
  (at level 61, m at next level, right associativity).

(** The libraries the cache calls. *)
Record Platform : Type := {
  JSON_stringify : jsval -> outcome string;
  JSON_parse : string -> outcome jsval;
  pako_deflate : list byte -> outcome (list byte);
  pako_inflate : list byte -> outcome (list byte);
  base64_encode : list byte -> string;
  base64_decode : string -> list byte;
  TextDecoder_decode : list byte -> string
}.

(** ** Data model *)

(** Modelled from the spec: [FileMap] is declared in ./constants, which is
    not part of the sources at hand; the boundary contract gives it as a
    mapping from file path to file content, both strings.  The list keeps
    the enumeration order of the object. *)
Definition FileMap : Type := list (string * string).

(** The object [compressEntry] stores in place of the files. *)
Record CompressedPayload : Type := {
  _compressed : jsval;
  _originalSize : option Z;
  _compressionRatio : option number
}.

(** [contextFiles] is typed [FileMap] and holds, at run time, either a plain
    value (the caller's file map, or what [JSON.parse] gave back) or the
    object with the [_compressed] blob. *)
Inductive ContextFiles : Type :=
| Plain (v : jsval)
| Packed (b : CompressedPayload).

Definition files_val (files : FileMap) : jsval :=
  VObj (map (fun pc => (fst pc, VStr (snd pc))) files).

Definition summary_val (summary : option string) : jsval :=
  match summary with
  | Some s => VStr s
  | None => VUndefined
  end.

Record EnhancedContextCacheEntry : Type := {
  timestamp : Z;
  contextFiles : ContextFiles;
  summary : jsval;
  expiresAt : Q;
  size : Z;
  compressed : option bool;
  originalSize : option Z;
  accessCount : Z;
  lastAccessTime : Z;
  totalAccessTime : Z
}.

(** JavaScript's [Map<string, V>], in insertion order. *)
Definition JsMap (V : Type) : Type := list (string * V).

Definition Map_get {V : Type} (k : string) (m : JsMap V) : option V := assoc k m.

Fixpoint Map_set {V : Type} (k : string) (v : V) (m : JsMap V) : JsMap V :=
  match m with
  | [] => [(k, v)]
  | (k', v') :: r => if (k' =? k)%string then (k, v) :: r else (k', v') :: Map_set k v r
  end.

Fixpoint Map_delete {V : Type} (k : string) (m : JsMap V) : JsMap V :=
  match m with
  | [] => []
  | (k', v') :: r => if (k' =? k)%string then r else (k', v') :: Map_delete k r
  end.

Definition Map_size {V : Type} (m : JsMap V) : Z := Z.of_nat (List.length m).

(** The private fields of the class ([llmCalls] is never written). *)
Record EnhancedContextCache : Type := {
  cache : JsMap EnhancedContextCacheEntry;
  maxSize : Z;
  defaultExpiryMs : Z;
  hits : Z;
  misses : Z;
  compressionEnabled : bool;
  adaptiveExpiryEnabled : bool;
  memoryMonitoringEnabled : bool;
  autoCompressionThreshold : Q
}.

Definition ENHANCED_CACHE_EXPIRY_MS : Z := 30 * 60 * 1000.
Definition MAX_ENHANCED_CACHE_SIZE : Z := 200.
Definition DEFAULT_COMPRESSION_THRESHOLD : Z := 5 * 1024.

(** The state the constructor builds. *)
Definition new_cache : EnhancedContextCache := {|
  cache := [];
  maxSize := MAX_ENHANCED_CACHE_SIZE;
  defaultExpiryMs := ENHANCED_CACHE_EXPIRY_MS;
  hits := 0;
  misses := 0;
  compressionEnabled := true;
  adaptiveExpiryEnabled := true;
  memoryMonitoringEnabled := true;
  autoCompressionThreshold := inject_Z DEFAULT_COMPRESSION_THRESHOLD
|}.

Definition with_cache (c : EnhancedContextCache) (m : JsMap EnhancedContextCacheEntry)
  : EnhancedContextCache := {|
  cache := m;
  maxSize := maxSize c;
  defaultExpiryMs := defaultExpiryMs c;
  hits := hits c;
  misses := misses c;
  compressionEnabled := compressionEnabled c;
  adaptiveExpiryEnabled := adaptiveExpiryEnabled c;
  memoryMonitoringEnabled := memoryMonitoringEnabled c;
  autoCompressionThreshold := autoCompressionThreshold c
|}.

Definition count_hit (c : EnhancedContextCache) : EnhancedContextCache := {|
  cache := cache c;
  maxSize := maxSize c;
  defaultExpiryMs := defaultExpiryMs c;
  hits := hits c + 1;
  misses := misses c;
  compressionEnabled := compressionEnabled c;
  adaptiveExpiryEnabled := adaptiveExpiryEnabled c;
  memoryMonitoringEnabled := memoryMonitoringEnabled c;
  autoCompressionThreshold := autoCompressionThreshold c
|}.

Definition count_miss (c : EnhancedContextCache) : EnhancedContextCache := {|
  cache := cache c;
  maxSize := maxSize c;
  defaultExpiryMs := defaultExpiryMs c;
  hits := hits c;
  misses := misses c + 1;
  compressionEnabled := compressionEnabled c;
  adaptiveExpiryEnabled := adaptiveExpiryEnabled c;
  memoryMonitoringEnabled := memoryMonitoringEnabled c;
  autoCompressionThreshold := autoCompressionThreshold c
|}.

(** [now > entry.expiresAt] *)
Definition expired (now : Z) (e : EnhancedContextCacheEntry) : bool :=
  negb (Qle_bool (inject_Z now) (expiresAt e)).

(** [x || 0] on a number *)
Definition or_zero (x : Z) : Z := if x =? 0 then 0 else x.

(** [entry.compressed] read as a condition *)
Definition is_compressed (e : EnhancedContextCacheEntry) : bool :=
  match compressed e with
  | Some b => b
  | None => false
  end.

(** ** The operations of the class *)

(** [Object.keys(contextFiles).length] *)
Definition own_key_count (cf : ContextFiles) : nat :=
  match cf with
  | Plain (VObj fields) => List.length fields
  | Plain (VArr items) => List.length items
  | Plain (VStr s) => String.length s
  | Plain _ => 0
  | Packed b =>
      (match _compressed b with VUndefined => 0 | _ => 1 end
       + match _originalSize b with None => 0 | Some _ => 1 end
       + match _compressionRatio b with None => 0 | Some _ => 1 end)%nat
  end.

(** [contextFiles] read as a condition *)
Definition truthy_files (cf : ContextFiles) : bool :=
  match cf with
  | Plain v => truthy v
  | Packed _ => true
  end.

(** The value [JSON.stringify] sees for [contextFiles]. *)
Definition files_to_val (cf : ContextFiles) : jsval :=
  match cf with
  | Plain v => v
  | Packed b =>
      VObj [("_compressed"%string, _compressed b);
            ("_originalSize"%string,
             match _originalSize b with Some o => VNum (Finite (inject_Z o)) | None => VUndefined end);
            ("_compressionRatio"%string,
             match _compressionRatio b with Some r => VNum r | None => VUndefined end)]
  end.

(** [summary || ''] *)
Definition or_empty (v : jsval) : jsval := if truthy v then v else VStr EmptyString.

(** [(1 - compressedSize/originalSize) * 100] with the IEEE results of a
    division by zero.  Both sizes are integers far below 2^53, so the
    double the code computes has the sign of the exact value, which is all
    the code looks at. *)
Definition compression_percent (compressedSize originalSize : Z) : number :=
  if originalSize =? 0 then
    if compressedSize =? 0 then NaN
    else if 0 <? compressedSize then NegInfinity else PosInfinity
  else Finite ((1 - inject_Z compressedSize / inject_Z originalSize) * 100)%Q.

(** [r <= 0] *)
Definition number_le_zero (r : number) : bool :=
  match r with
  | Finite q => Qle_bool q 0
  | NegInfinity => true
  | NaN | PosInfinity => false
  end.

(** [calculateSize] *)
Definition calculateSize (contextFiles : FileMap) (summary : option string) : Z :=
  let size :=
    fold_left
      (fun size pc =>
         size + Z.of_nat (String.length (fst pc))
              + Z.of_nat (List.length (TextEncoder_encode (snd pc))))
      contextFiles 0 in
  match summary with
  | Some s => if truthy_string s then size + Z.of_nat (String.length s) else size
  | None => size
  end.

(** The loop of [getOldestEntry]; [None] as [oldestTime] is [Infinity]. *)
Fixpoint oldest_scan (m : JsMap EnhancedContextCacheEntry)
    (oldestKey : option string) (oldestTime : option Z) : option string :=
  match m with
  | [] => oldestKey
  | (key, entry) :: r =>
      if match oldestTime with
         | None => true
         | Some t => timestamp entry <? t
         end
      then oldest_scan r (Some key) (Some (timestamp entry))
      else oldest_scan r oldestKey oldestTime
  end.

Definition getOldestEntry (c : EnhancedContextCache) : option string :=
  if Map_size (cache c) =? 0 then None else oldest_scan (cache c) None None.

(** [cleanup]; [now] is the one reading of the clock it makes. *)
Definition cleanup (c : EnhancedContextCache) (now : Z) : EnhancedContextCache :=
  with_cache c (filter (fun ke => negb (expired now (snd ke))) (cache c)).

Section Operations.

Variable P : Platform.

(** [generateCacheKey]; it throws where [JSON.stringify] does. *)
Definition generateCacheKey (promptId : option string) (messageIds filePaths : list string)
  : outcome string :=
  let normalizedMessageIds := slice_last 3 (map trim (filter nonblank messageIds)) in
  let normalizedFilePaths :=
    sort (map (fun path => toLowerCase (trim path)) (filter nonblank filePaths)) in
  let cacheKey :=
    VObj [("promptId"%string,
           match promptId with
           | Some p => if truthy_string (trim p) then VStr (trim p) else VNull
           | None => VNull
           end);
          ("messageIds"%string, VArr (map VStr normalizedMessageIds));
          ("filePaths"%string, VArr (map VStr normalizedFilePaths))] in
  JSON_stringify P cacheKey.

(** The [try] block of [compressEntry]. *)
Definition compressEntry_try (c : EnhancedContextCache) (entry : EnhancedContextCacheEntry)
  : outcome EnhancedContextCacheEntry :=
  if negb (compressionEnabled c) || is_compressed entry then Return entry else
  let originalSize := size entry in
  if Qle_bool (inject_Z originalSize) (autoCompressionThreshold c) then Return entry else
  if negb (truthy_files (contextFiles entry)) || (own_key_count (contextFiles entry) =? 0)%nat
  then Return entry else
  let dataToCompress :=
    VObj [("contextFiles"%string, files_to_val (contextFiles entry));
          ("summary"%string, or_empty (summary entry))] in
  match JSON_stringify P dataToCompress with
  | Throw _ => Return entry
  | Return serializedData =>
      let originalData := TextEncoder_encode serializedData in
      compressedData <- pako_deflate P originalData ;;
      let compressedSize := Z.of_nat (List.length compressedData) in
      let compressionRatio := compression_percent compressedSize originalSize in
      if number_le_zero compressionRatio then Return entry else
      let compressedBase64 := base64_encode P compressedData in
      Return {|
        timestamp := timestamp entry;
        contextFiles := Packed {|
          _compressed := VStr compressedBase64;
          _originalSize := Some originalSize;
          _compressionRatio := Some compressionRatio |};
        summary := summary entry;
        expiresAt := expiresAt entry;
        size := compressedSize;
        compressed := Some true;
        originalSize := Some originalSize;
        accessCount := accessCount entry;
        lastAccessTime := lastAccessTime entry;
        totalAccessTime := totalAccessTime entry |}
  end.

(** [compressEntry]: whatever the block throws, the entry comes back as it
    was. *)
Definition compressEntry (c : EnhancedContextCache) (entry : EnhancedContextCacheEntry)
  : EnhancedContextCacheEntry :=
  try_catch (compressEntry_try c entry) (fun _ => entry).

(** The [try] block of [decompressEntry].  An object that carries the
    [_compressed] and [_originalSize] properties is a [Packed] value; a
    [Plain] value has neither. *)
Definition decompressEntry_try (entry : EnhancedContextCacheEntry)
  : outcome EnhancedContextCacheEntry :=
  match contextFiles entry with
  | Plain _ => Throw "Format des données compressées invalide"
  | Packed blob =>
      match _compressed blob with
      | VStr compressedData =>
          if negb (truthy_string compressedData)
          then Throw "Format des données compressées invalide" else
          match _originalSize blob with
          | None => Throw "Taille originale manquante"
          | Some blobOriginalSize =>
              if blobOriginalSize =? 0 then Throw "Taille originale manquante" else
              decompressedData <-
                rethrow (pako_inflate P (base64_decode P compressedData))
                        "Erreur lors de la décompression avec pako: " ;;
              parsedData <-
                rethrow (JSON_parse P (TextDecoder_decode P decompressedData))
                        "Erreur lors du parsing des données décompressées: " ;;
              let parsedFiles := get_prop parsedData "contextFiles" in
              if negb (truthy parsedFiles) || negb (typeof_object parsedFiles)
              then Throw "Structure des données décompressées invalide" else
              Return {|
                timestamp := timestamp entry;
                contextFiles := Plain parsedFiles;
                summary := get_prop parsedData "summary";
                expiresAt := expiresAt entry;
                size := blobOriginalSize;
                compressed := Some false;
                originalSize := originalSize entry;
                accessCount := accessCount entry;
                lastAccessTime := lastAccessTime entry;
                totalAccessTime := totalAccessTime entry |}
          end
      | _ => Throw "Format des données compressées invalide"
      end
  end.

(** [decompressEntry]: the [catch] logs and gives the entry back as it
    was, still compressed. *)
Definition decompressEntry (entry : EnhancedContextCacheEntry) : EnhancedContextCacheEntry :=
  if negb (is_compressed entry) then entry
  else try_catch (decompressEntry_try entry) (fun _ => entry).

(** [adjustExpiry]; [now] is its own reading of the clock. *)
Definition adjustExpiry (c : EnhancedContextCache) (entry : EnhancedContextCacheEntry) (now : Z)
  : EnhancedContextCacheEntry :=
  let accessFactor := (inject_Z (Z.min (accessCount entry) 10) / 10)%Q in
  let additionalTime := (inject_Z (defaultExpiryMs c) * accessFactor)%Q in
  {| timestamp := timestamp entry;
     contextFiles := contextFiles entry;
     summary := summary entry;
     expiresAt := Qmax (expiresAt entry) (inject_Z now + additionalTime);
     size := size entry;
     compressed := compressed entry;
     originalSize := originalSize entry;
     accessCount := accessCount entry;
     lastAccessTime := lastAccessTime entry;
     totalAccessTime := totalAccessTime entry |}.

(** The entry [set] builds before it considers compression. *)
Definition fresh_entry (c : EnhancedContextCache) (contextFiles : FileMap)
    (summary : option string) (expiryMs : option Z) (now : Z) : EnhancedContextCacheEntry :=
  let expiry :=
    match expiryMs with
    | Some ms => if ms =? 0 then defaultExpiryMs c else ms
    | None => defaultExpiryMs c
    end in
  {| timestamp := now;
     contextFiles := Plain (files_val contextFiles);
     summary := summary_val summary;
     expiresAt := inject_Z (now + expiry);
     size := calculateSize contextFiles summary;
     compressed := None;
     originalSize := None;
     accessCount := 0;
     lastAccessTime := now;
     totalAccessTime := 0 |}.

(** The eviction step of [set]: [if (oldestKey)] passes neither [null] nor
    the empty string. *)
Definition evict_if_full (c : EnhancedContextCache) : EnhancedContextCache :=
  if maxSize c <=? Map_size (cache c) then
    match getOldestEntry c with
    | Some oldestKey =>
        if truthy_string oldestKey then with_cache c (Map_delete oldestKey (cache c)) else c
    | None => c
    end
  else c.

(** [set(key, value, expiryMs)]; [sweepTime] is the clock as [cleanup]
    reads it and [now] the reading [set] makes itself. *)
Definition set (c : EnhancedContextCache) (key : string) (contextFiles : FileMap)
    (summary : option string) (expiryMs : option Z) (sweepTime now : Z)
  : EnhancedContextCache :=
  let c := cleanup c sweepTime in
  let c := evict_if_full c in
  let entry := fresh_entry c contextFiles summary expiryMs now in
  let entry :=
    if compressionEnabled c && negb (Qle_bool (inject_Z (size entry)) (autoCompressionThreshold c))
    then compressEntry c entry else entry in
  with_cache c (Map_set key entry (cache c)).

(** The counters [get] updates on the entry it is about to return. *)
Definition touch (entry : EnhancedContextCacheEntry) (startTime now : Z)
  : EnhancedContextCacheEntry :=
  let accessTime := now - startTime in
  {| timestamp := now;
     contextFiles := contextFiles entry;
     summary := summary entry;
     expiresAt := expiresAt entry;
     size := size entry;
     compressed := compressed entry;
     originalSize := originalSize entry;
     accessCount := or_zero (accessCount entry) + 1;
     lastAccessTime := now;
     totalAccessTime := or_zero (totalAccessTime entry) + accessTime |}.

(** [get(key)].  The four readings of the clock are, in order: [startTime],
    the one compared with [expiresAt], [now], and the one [adjustExpiry]
    makes.  [adjustExpiry] writes to the object that [cache.set] has just
    stored, so the stored entry carries the adjusted [expiresAt]. *)
Definition get (c : EnhancedContextCache) (key : string) (startTime checkTime now adjustTime : Z)
  : option (ContextFiles * jsval) * EnhancedContextCache :=
  match Map_get key (cache c) with
  | None => (None, count_miss c)
  | Some entry =>
      if expired checkTime entry
      then (None, count_miss (with_cache c (Map_delete key (cache c))))
      else
        let decompressedEntry :=
          if is_compressed entry then decompressEntry entry else entry in
        let decompressedEntry := touch decompressedEntry startTime now in
        let c := count_hit c in
        let c := with_cache c (Map_set key decompressedEntry (cache c)) in
        let decompressedEntry :=
          if adaptiveExpiryEnabled c then adjustExpiry c decompressedEntry adjustTime
          else decompressedEntry in
        let c := with_cache c (Map_set key decompressedEntry (cache c)) in
        (Some (contextFiles decompressedEntry, summary decompressedEntry), c)
  end.

End Operations.

(** [delete(key)] *)
Definition delete (c : EnhancedContextCache) (key : string) : bool * EnhancedContextCache :=
  (match Map_get key (cache c) with Some _ => true | None => false end,
   with_cache c (Map_delete key (cache c))).

(** [clear()] *)
Definition clear (c : EnhancedContextCache) : EnhancedContextCache := {|
  cache := [];
  maxSize := maxSize c;
  defaultExpiryMs := defaultExpiryMs c;
  hits := 0;
  misses := 0;
  compressionEnabled := compressionEnabled c;
  adaptiveExpiryEnabled := adaptiveExpiryEnabled c;
  memoryMonitoringEnabled := memoryMonitoringEnabled c;
  autoCompressionThreshold := autoCompressionThreshold c
|}.

(** [setMaxSize(size)]: the new bound, then a sweep and nothing more. *)
Definition setMaxSize (c : EnhancedContextCache) (newSize : Z) (now : Z) : EnhancedContextCache :=
  cleanup {|
    cache := cache c;
    maxSize := newSize;
    defaultExpiryMs := defaultExpiryMs c;
    hits := hits c;
    misses := misses c;
    compressionEnabled := compressionEnabled c;
    adaptiveExpiryEnabled := adaptiveExpiryEnabled c;
    memoryMonitoringEnabled := memoryMonitoringEnabled c;
    autoCompressionThreshold := autoCompressionThreshold c |} now.

Definition setDefaultExpiry (c : EnhancedContextCache) (expiryMs : Z) : EnhancedContextCache := {|
  cache := cache c;
  maxSize := maxSize c;
  defaultExpiryMs := expiryMs;
  hits := hits c;
  misses := misses c;
  compressionEnabled := compressionEnabled c;
  adaptiveExpiryEnabled := adaptiveExpiryEnabled c;
  memoryMonitoringEnabled := memoryMonitoringEnabled c;
  autoCompressionThreshold := autoCompressionThreshold c
|}.

Definition setCompressionEnabled (c : EnhancedContextCache) (enabled : bool)
  : EnhancedContextCache := {|
  cache := cache c;
  maxSize := maxSize c;
  defaultExpiryMs := defaultExpiryMs c;
  hits := hits c;
  misses := misses c;
  compressionEnabled := enabled;
  adaptiveExpiryEnabled := adaptiveExpiryEnabled c;
  memoryMonitoringEnabled := memoryMonitoringEnabled c;
  autoCompressionThreshold := autoCompressionThreshold c
|}.

Definition setAdaptiveExpiryEnabled (c : EnhancedContextCache) (enabled : bool)
  : EnhancedContextCache := {|
  cache := cache c;
  maxSize := maxSize c;
  defaultExpiryMs := defaultExpiryMs c;
  hits := hits c;
  misses := misses c;
  compressionEnabled := compressionEnabled c;
  adaptiveExpiryEnabled := enabled;
  memoryMonitoringEnabled := memoryMonitoringEnabled c;
  autoCompressionThreshold := autoCompressionThreshold c
|}.

Definition setMemoryMonitoringEnabled (c : EnhancedContextCache) (enabled : bool)
  : EnhancedContextCache := {|
  cache := cache c;
  maxSize := maxSize c;
  defaultExpiryMs := defaultExpiryMs c;
  hits := hits c;
  misses := misses c;
  compressionEnabled := compressionEnabled c;
  adaptiveExpiryEnabled := adaptiveExpiryEnabled c;
  memoryMonitoringEnabled := enabled;
  autoCompressionThreshold := autoCompressionThreshold c
|}.

Definition with_threshold (c : EnhancedContextCache) (threshold : Q) : EnhancedContextCache := {|
  cache := cache c;
  maxSize := maxSize c;
  defaultExpiryMs := defaultExpiryMs c;
  hits := hits c;
  misses := misses c;
  compressionEnabled := compressionEnabled c;
  adaptiveExpiryEnabled := adaptiveExpiryEnabled c;
  memoryMonitoringEnabled := memoryMonitoringEnabled c;
  autoCompressionThreshold := threshold
|}.

Definition setAutoCompressionThreshold (c : EnhancedContextCache) (threshold : Z)
  : EnhancedContextCache := with_threshold c (inject_Z threshold).

(** [entry.compressed && entry.originalSize], the entries [getStats] counts
    as compressed. *)
Definition counted_as_compressed (e : EnhancedContextCacheEntry) : bool :=
  is_compressed e &&
  match originalSize e with
  | Some o => negb (o =? 0)
  | None => false
  end.

(** The snapshot of [getStats], without the list of paths and without
    [llmCalls], which nothing below reads. *)
Module Stats.
Record t : Type := {
  size : Z;
  maxSize : Z;
  defaultExpiryMs : Z;
  hits : Z;
  misses : Z;
  hitRatio : Q;
  compressionEnabled : bool;
  adaptiveExpiryEnabled : bool;
  compressionRatio : Q;
  averageAccessTime : Q;
  totalAccessTime : Z;
  accessCount : Z;
  memoryMonitoringEnabled : bool;
  totalOriginalSize : Z;
  totalCompressedSize : Z;
  compressedEntries : Z;
  autoCompressionThreshold : Q
}.
End Stats.

Definition sum_over (f : EnhancedContextCacheEntry -> Z) (m : JsMap EnhancedContextCacheEntry) : Z :=
  fold_left (fun acc ke => acc + f (snd ke)) m 0.

Definition getStats (c : EnhancedContextCache) : Stats.t :=
  let totalOriginalSize :=
    sum_over (fun e => if counted_as_compressed e
                       then match originalSize e with Some o => o | None => 0 end else 0)
             (cache c) in
  let totalCompressedSize :=
    sum_over (fun e => if counted_as_compressed e then size e else 0) (cache c) in
  let compressedEntries :=
    sum_over (fun e => if counted_as_compressed e then 1 else 0) (cache c) in
  let totalAccesses := hits c + misses c in
  let totalAccessTime := sum_over totalAccessTime (cache c) in
  let accessCount := sum_over accessCount (cache c) in
  {| Stats.size := Map_size (cache c);
     Stats.maxSize := maxSize c;
     Stats.defaultExpiryMs := defaultExpiryMs c;
     Stats.hits := hits c;
     Stats.misses := misses c;
     Stats.hitRatio :=
       if 0 <? totalAccesses then (inject_Z (hits c) / inject_Z totalAccesses)%Q else 0%Q;
     Stats.compressionEnabled := compressionEnabled c;
     Stats.adaptiveExpiryEnabled := adaptiveExpiryEnabled c;
     Stats.compressionRatio :=
       if 0 <? totalOriginalSize
       then (1 - inject_Z totalCompressedSize / inject_Z totalOriginalSize)%Q else 0%Q;
     Stats.averageAccessTime :=
       if 0 <? accessCount then (inject_Z totalAccessTime / inject_Z accessCount)%Q else 0%Q;
     Stats.totalAccessTime := totalAccessTime;
     Stats.accessCount := accessCount;
     Stats.memoryMonitoringEnabled := memoryMonitoringEnabled c;
     Stats.totalOriginalSize := totalOriginalSize;
     Stats.totalCompressedSize := totalCompressedSize;
     Stats.compressedEntries := compressedEntries;
     Stats.autoCompressionThreshold := autoCompressionThreshold c |}.

(** The callback the constructor hands to [setInterval]. *)
Definition timer_tick (c : EnhancedContextCache) (now : Z) : EnhancedContextCache :=
  let c := cleanup c now in
  if compressionEnabled c then
    if negb (Qle_bool (1 # 10) (Stats.compressionRatio (getStats c)))
    then with_threshold c (Qmax 1024 (autoCompressionThreshold c / 2))
    else c
  else c.

(** ** Sequences of calls *)

Inductive Call : Type :=
| CallSet (key : string) (contextFiles : FileMap) (summary : option string)
          (expiryMs : option Z) (sweepTime now : Z)
| CallGet (key : string) (startTime checkTime now adjustTime : Z)
| CallDelete (key : string)
| CallClear
| CallSetMaxSize (newSize now : Z)
| CallSetDefaultExpiry (expiryMs : Z)
| CallSetCompressionEnabled (enabled : bool)
| CallSetAdaptiveExpiryEnabled (enabled : bool)
| CallSetMemoryMonitoringEnabled (enabled : bool)
| CallSetAutoCompressionThreshold (threshold : Z)
| TimerTick (now : Z).

Definition step (P : Platform) (c : EnhancedContextCache) (call : Call) : EnhancedContextCache :=
  match call with
  | CallSet key files summary expiryMs sweepTime now =>
      set P c key files summary expiryMs sweepTime now
  | CallGet key startTime checkTime now adjustTime =>
      snd (get P c key startTime checkTime now adjustTime)
  | CallDelete key => snd (delete c key)
  | CallClear => clear c
  | CallSetMaxSize newSize now => setMaxSize c newSize now
  | CallSetDefaultExpiry expiryMs => setDefaultExpiry c expiryMs
  | CallSetCompressionEnabled enabled => setCompressionEnabled c enabled
  | CallSetAdaptiveExpiryEnabled enabled => setAdaptiveExpiryEnabled c enabled
  | CallSetMemoryMonitoringEnabled enabled => setMemoryMonitoringEnabled c enabled
  | CallSetAutoCompressionThreshold threshold => setAutoCompressionThreshold c threshold
  | TimerTick now => timer_tick c now
  end.

Definition run (P : Platform) (c : EnhancedContextCache) (calls : list Call)
  : EnhancedContextCache := fold_left (step P) calls c.

(** ** A small executable platform

    Stand-ins that run inside Rocq, used to evaluate the cache on concrete
    calls: a printer and a parser for the JSON built from strings, arrays,
    objects, booleans and [null] (strings without escapes), run-length coding
    in the place of deflate, and the byte-per-character transport encoding
    in the place of base64. *)

Definition dquote : ascii := ascii_of_N 34.

Fixpoint tiny_printable (v : jsval) : bool :=
  match v with
  | VUndefined | VNum _ => false
  | VNull | VBool _ | VStr _ => true
  | VArr items => forallb tiny_printable items
  | VObj fields => forallb (fun kv => tiny_printable (snd kv)) fields
  end.

Fixpoint tiny_print (v : jsval) : string :=
  match v with
  | VUndefined | VNull | VNum _ => "null"
  | VBool true => "true"
  | VBool false => "false"
  | VStr s => String dquote (s ++ String dquote EmptyString)
  | VArr items =>
      "[" ++ (fix items_to_string (l : list jsval) : string :=
                match l with
                | [] => EmptyString
                | x :: r =>
                    tiny_print x ++
                    match r with [] => EmptyString | _ => "," ++ items_to_string r end
                end) items ++ "]"
  | VObj fields =>
      "{" ++ (fix fields_to_string (l : list (string * jsval)) : string :=
                match l with
                | [] => EmptyString
                | (k, x) :: r =>
                    String dquote (k ++ String dquote EmptyString) ++ ":" ++ tiny_print x ++
                    match r with [] => EmptyString | _ => "," ++ fields_to_string r end
                end) fields ++ "}"
  end%string.

Definition tiny_stringify (v : jsval) : outcome string :=
  if tiny_printable v then Return (tiny_print v)
  else Throw "Converting this value to JSON is not supported".

(** The characters up to the closing quote, and what follows it. *)
Fixpoint read_string (s : string) : option (string * string) :=
  match s with
  | EmptyString => None
  | String ch r =>
      if Ascii.eqb ch dquote then Some (EmptyString, r)
      else match read_string r with
           | Some (x, rest) => Some (String ch x, rest)
           | None => None
           end
  end.

Fixpoint read_value (fuel : nat) (s : string) : option (jsval * string) :=
  match fuel with
  | O => None
  | S fuel' =>
      match s with
      | String "n" (String "u" (String "l" (String "l" r))) => Some (VNull, r)
      | String "t" (String "r" (String "u" (String "e" r))) => Some (VBool true, r)
      | String "f" (String "a" (String "l" (String "s" (String "e" r)))) =>
          Some (VBool false, r)
      | String "[" (String "]" r) => Some (VArr [], r)
      | String "[" r =>
          match read_items fuel' r with
          | Some (items, rest) => Some (VArr items, rest)
          | None => None
          end
      | String "{" (String "}" r) => Some (VObj [], r)
      | String "{" r =>
          match read_fields fuel' r with
          | Some (fields, rest) => Some (VObj fields, rest)
          | None => None
          end
      | String ch r =>
          if Ascii.eqb ch dquote then
            match read_string r with
            | Some (x, rest) => Some (VStr x, rest)
            | None => None
            end
          else None
      | EmptyString => None
      end
  end
with read_items (fuel : nat) (s : string) : option (list jsval * string) :=
  match fuel with
  | O => None
  | S fuel' =>
      match read_value fuel' s with
      | Some (x, String "," rest) =>
          match read_items fuel' rest with
          | Some (items, rest') => Some (x :: items, rest')
          | None => None
          end
      | Some (x, String "]" rest) => Some ([x], rest)
      | _ => None
      end
  end
with read_fields (fuel : nat) (s : string) : option (list (string * jsval) * string) :=
  match fuel with
  | O => None
  | S fuel' =>
      match s with
      | String ch r =>
          if Ascii.eqb ch dquote then
            match read_string r with
            | Some (k, String ":" rest) =>
                match read_value fuel' rest with
                | Some (x, String "," rest') =>
                    match read_fields fuel' rest' with
                    | Some (fields, rest'') => Some ((k, x) :: fields, rest'')
                    | None => None
                    end
                | Some (x, String "}" rest') => Some ([(k, x)], rest')
                | _ => None
                end
            | _ => None
            end
          else None
      | EmptyString => None
      end
  end.

Definition tiny_parse (s : string) : outcome jsval :=
  match read_value (S (String.length s)) s with
  | Some (v, EmptyString) => Return v
  | _ => Throw "Unexpected token in JSON"
  end.

Definition byte_of_nat (n : nat) : byte :=
  match Byte.of_nat n with
  | Some b => b
  | None => x00
  end.

(** Runs of equal bytes, at most 255 long. *)
Fixpoint runs (l : list byte) : list (nat * byte) :=
  match l with
  | [] => []
  | b :: r =>
      match runs r with
      | (n, b') :: t =>
          if Byte.eqb b b' && (n <? 255)%nat then (S n, b) :: t else (1%nat, b) :: (n, b') :: t
      | [] => [(1%nat, b)]
      end
  end.

Definition rle_deflate (l : list byte) : outcome (list byte) :=
  Return (flat_map (fun nb => [byte_of_nat (fst nb); snd nb]) (runs l)).

Fixpoint rle_inflate (l : list byte) : outcome (list byte) :=
  match l with
  | [] => Return []
  | n :: b :: r => rest <- rle_inflate r ;; Return (repeat b (Byte.to_nat n) ++ rest)
  | [_] => Throw "unexpected end of file"
  end.

Definition tiny_platform : Platform := {|
  JSON_stringify := tiny_stringify;
  JSON_parse := tiny_parse;
  pako_deflate := rle_deflate;
  pako_inflate := rle_inflate;
  base64_encode := string_of_list_byte;
  base64_decode := list_byte_of_string;
  TextDecoder_decode := string_of_list_byte
|}.

(** A platform whose serialiser always throws, as [JSON.stringify] does on
    a cyclic value. *)
Definition throwing_platform : Platform := {|
  JSON_stringify := fun _ => Throw "Converting circular structure to JSON";
  JSON_parse := tiny_parse;
  pako_deflate := rle_deflate;
  pako_inflate := rle_inflate;
  base64_encode := string_of_list_byte;
  base64_decode := list_byte_of_string;
  TextDecoder_decode := string_of_list_byte
|}.

(** ** Concrete states *)

Definition small_files : FileMap := [("a.ts", "let a = 1")]%string.

(** One entry under the key k, stored at time 1000 to live 10 ms. *)
Definition short_lived : EnhancedContextCache :=
  set tiny_platform new_cache "k" small_files None (Some 10) 1000 1000.

(** A compressed entry whose blob is missing, next to a sound entry. *)
Definition corrupt_entry : EnhancedContextCacheEntry := {|
  timestamp := 1000;
  contextFiles := Packed {| _compressed := VUndefined;
                            _originalSize := Some 6000;
                            _compressionRatio := Some (Finite 50) |};
  summary := VUndefined;
  expiresAt := 1801000;
  size := 3000;
  compressed := Some true;
  originalSize := Some 6000;
  accessCount := 0;
  lastAccessTime := 1000;
  totalAccessTime := 0
|}.

Definition corrupt_cache : EnhancedContextCache :=
  with_cache (set tiny_platform new_cache "good" small_files None None 1000 1000)
             (Map_set "bad" corrupt_entry
                (cache (set tiny_platform new_cache "good" small_files None None 1000 1000))).

(** Three entries, then a lower bound. *)
Definition three_then_shrink : list Call :=
  [CallSet "a" small_files None None 1000 1000;
   CallSet "b" small_files None None 1001 1001;
   CallSet "c" small_files None None 1002 1002;
   CallSetMaxSize 2 1003].

(** A cache of capacity 2 holding the keys a and b, a touched first. *)
Definition full_cache : EnhancedContextCache :=
  run tiny_platform new_cache
      [CallSetMaxSize 2 999;
       CallSet "a" small_files None None 1000 1000;
       CallSet "b" small_files None None 1001 1001].

(** One entry under the key k, stored at time 1000 with an override of
    10 000 000 ms, more than twice the default window. *)
Definition long_lived : EnhancedContextCache :=
  set tiny_platform new_cache "k" small_files None (Some 10000000) 1000 1000.

(** ['X'.repeat(n)] *)
Fixpoint repeat_X (n : nat) : string :=
  match n with
  | O => EmptyString
  | S n' => String "X" (repeat_X n')
  end.

(** The end-to-end scenario of the specification, with a file of 6000
    repeated characters in the place of 20000: no summary, the default
    threshold of 5 KiB. *)
Definition scenario_files : FileMap := [("src/App.tsx"%string, repeat_X (N.to_nat 6000))].

Definition scenario_key : string :=
  match generateCacheKey tiny_platform (Some "default"%string)
                         ["m1"; "m2"; "m3"]%string ["src/App.tsx"]%string with
  | Return k => k
  | Throw _ => EmptyString
  end.

Definition scenario_cache : EnhancedContextCache :=
  set tiny_platform new_cache scenario_key scenario_files None None 1000 1000.

(** Two files of repeated characters, no summary, under a threshold of 64
    bytes. *)
Definition repetitive_files : FileMap :=
  [("a.ts"%string, repeat_X 100); ("b.ts"%string, repeat_X 200)].

Definition low_threshold_cache : EnhancedContextCache :=
  setAutoCompressionThreshold new_cache 64.

(** ** Notions used in the statements *)

(** Two characters that are the same letter, whatever the case. *)
Definition same_letter (a b : ascii) : Prop :=
  a = b \/
  (is_upper a = true /\ N_of_ascii b = (N_of_ascii a + 32)%N) \/
  (is_upper b = true /\ N_of_ascii a = (N_of_ascii b + 32)%N).

(** Two strings that differ in letter case only. *)
Inductive same_case : string -> string -> Prop :=
| same_case_empty : same_case EmptyString EmptyString
| same_case_char a b s t :
    same_letter a b -> same_case s t -> same_case (String a s) (String b t).

Fixpoint all_ws (s : string) : bool :=
  match s with
  | EmptyString => true
  | String a r => is_ws a && all_ws r
  end.


(** The keys of a map are pairwise distinct, as in every [Map]. *)
Definition well_formed {V : Type} (m : JsMap V) : Prop := NoDup (map fst m).

(** The entry [compressEntry] returns when it keeps the compressed bytes. *)
Definition packed_form (P : Platform) (entry : EnhancedContextCacheEntry)
    (compressedData : list byte) : EnhancedContextCacheEntry :=
  let compressedSize := Z.of_nat (List.length compressedData) in
  {| timestamp := timestamp entry;
     contextFiles := Packed {|
       _compressed := VStr (base64_encode P compressedData);
       _originalSize := Some (size entry);
       _compressionRatio := Some (compression_percent compressedSize (size entry)) |};
     summary := summary entry;
     expiresAt := expiresAt entry;
     size := compressedSize;
     compressed := Some true;
     originalSize := Some (size entry);
     accessCount := accessCount entry;
     lastAccessTime := lastAccessTime entry;
     totalAccessTime := totalAccessTime entry |}.

(** The entry [decompressEntry] returns when the blob parses to [parsedData]. *)
Definition unpacked_form (entry : EnhancedContextCacheEntry) (blobOriginalSize : Z)
    (parsedData : jsval) : EnhancedContextCacheEntry :=
  {| timestamp := timestamp entry;
     contextFiles := Plain (get_prop parsedData "contextFiles");
     summary := get_prop parsedData "summary";
     expiresAt := expiresAt entry;
     size := blobOriginalSize;
     compressed := Some false;
     originalSize := originalSize entry;
     accessCount := accessCount entry;
     lastAccessTime := lastAccessTime entry;
     totalAccessTime := totalAccessTime entry |}.

(** The object [compressEntry] serialises. *)
Definition payload_val (contextFiles : FileMap) (summary : option string) : jsval :=
  VObj [("contextFiles"%string, files_val contextFiles);
        ("summary"%string, or_empty (summary_val summary))].

(** The state in which [set] builds and stores its entry: after the sweep
    and the eviction. *)
Definition swept (c : EnhancedContextCache) (sweepTime : Z) : EnhancedContextCache :=
  evict_if_full (cleanup c sweepTime).

(** What [set] leaves under the key. *)
Definition stored_by_set (P : Platform) (c : EnhancedContextCache) (contextFiles : FileMap)
    (summary : option string) (expiryMs : option Z) (sweepTime now : Z)
  : EnhancedContextCacheEntry :=
  let c1 := swept c sweepTime in
  let entry := fresh_entry c1 contextFiles summary expiryMs now in
  if compressionEnabled c1 && negb (Qle_bool (inject_Z (size entry)) (autoCompressionThreshold c1))
  then compressEntry P c1 entry else entry.

(** What [get] leaves under the key, and returns, on a hit. *)
Definition served_by_get (P : Platform) (c : EnhancedContextCache)
    (entry : EnhancedContextCacheEntry) (startTime now adjustTime : Z)
  : EnhancedContextCacheEntry :=
  let decompressedEntry :=
    touch (if is_compressed entry then decompressEntry P entry else entry) startTime now in
  if adaptiveExpiryEnabled c then adjustExpiry c decompressedEntry adjustTime
  else decompressedEntry.

(** The ways in which the payload of a compressed entry is malformed: no
    blob, or one that is not a non-empty string; no original size; a blob
    that does not inflate; inflated text that does not parse; parsed data
    without a [contextFiles] object. *)
Inductive malformed (P : Platform) (e : EnhancedContextCacheEntry) : Prop :=
| no_payload_object v :
    contextFiles e = Plain v -> malformed P e
| blob_not_a_string b :
    contextFiles e = Packed b -> (forall s, _compressed b <> VStr s) -> malformed P e
| blob_empty b :
    contextFiles e = Packed b -> _compressed b = VStr EmptyString -> malformed P e
| original_size_missing b :
    contextFiles e = Packed b -> _originalSize b = None \/ _originalSize b = Some 0 ->
    malformed P e
| inflate_fails b s msg :
    contextFiles e = Packed b -> _compressed b = VStr s ->
    pako_inflate P (base64_decode P s) = Throw msg -> malformed P e
| parse_fails b s bytes msg :
    contextFiles e = Packed b -> _compressed b = VStr s ->
    pako_inflate P (base64_decode P s) = Return bytes ->
    JSON_parse P (TextDecoder_decode P bytes) = Throw msg -> malformed P e
| structure_invalid b s bytes parsedData :
    contextFiles e = Packed b -> _compressed b = VStr s ->
    pako_inflate P (base64_decode P s) = Return bytes ->
    JSON_parse P (TextDecoder_decode P bytes) = Return parsedData ->
    truthy (get_prop parsedData "contextFiles")
      && typeof_object (get_prop parsedData "contextFiles") = false ->
    malformed P e.

(** Sequences of calls in which [set] gets non-empty keys and [setMaxSize]
    never lowers the bound in force, [bound]. *)
Fixpoint bounded_calls (bound : Z) (calls : list Call) : Prop :=
  match calls with
  | [] => True
  | CallSet key _ _ _ _ _ :: rest => key <> EmptyString /\ bounded_calls bound rest
  | CallSetMaxSize newSize _ :: rest => bound <= newSize /\ bounded_calls newSize rest
  | _ :: rest => bounded_calls bound rest
  end.

(** The store is a map with non-empty keys that respects a bound of at
    least one entry. *)
Record within_capacity (c : EnhancedContextCache) : Prop := {
  keys_distinct : well_formed (cache c);
  keys_nonempty : forall k, In k (map fst (cache c)) -> k <> EmptyString;
  bound_positive : 1 <= maxSize c;
  size_bounded : Map_size (cache c) <= maxSize c
}.

(** The platform gives back what it packed: the bytes [pako.deflate]
    produced for the serialised value are not empty, travel as a non-empty
    base64 string, inflate, and parse to the value. *)
Definition round_trips (P : Platform) (v : jsval) : Prop :=
  forall serializedData compressedData,
    JSON_stringify P v = Return serializedData ->
    pako_deflate P (TextEncoder_encode serializedData) = Return compressedData ->
    compressedData <> [] /\
    truthy_string (base64_encode P compressedData) = true /\
    exists bytes,
      pako_inflate P (base64_decode P (base64_encode P compressedData)) = Return bytes /\
      JSON_parse P (TextDecoder_decode P bytes) = Return v.

(** [decompressEntry] succeeds on the entry: its blob is a non-empty
    string that inflates and parses to [parsedData], which has a
    [contextFiles] object, and the original size [o] is there. *)
Record unpacks (P : Platform) (e : EnhancedContextCacheEntry) (o : Z) (parsedData : jsval)
  : Prop := {
  unpacks_compressed : is_compressed e = true;
  unpacks_blob : exists b s bytes,
    contextFiles e = Packed b /\ _compressed b = VStr s /\ truthy_string s = true /\
    _originalSize b = Some o /\
    pako_inflate P (base64_decode P s) = Return bytes /\
    JSON_parse P (TextDecoder_decode P bytes) = Return parsedData;
  unpacks_size : o <> 0;
  unpacks_structure :
    truthy (get_prop parsedData "contextFiles")
      && typeof_object (get_prop parsedData "contextFiles") = true
}.

(** Every compressed entry carries its original size and is no larger. *)
Definition compressed_entries_shrunk (c : EnhancedContextCache) : Prop :=
  forall k e, In (k, e) (cache c) -> is_compressed e = true ->
              exists o, originalSize e = Some o /\ size e <= o.

(** ** Notions used in the further properties *)

(** [s'] is [s] with white space added at either end. *)
Definition padded (s s' : string) : Prop :=
  exists pre post,
    all_ws pre = true /\ all_ws post = true /\ s' = (pre ++ s ++ post)%string.

Definition padded_prompt (p p' : option string) : Prop :=
  match p, p' with
  | Some s, Some s' => padded s s'
  | None, None => True
  | _, _ => False
  end.

(** Every character is below U+0080. *)
Fixpoint is_ascii_string (s : string) : bool :=
  match s with
  | EmptyString => true
  | String a r => (N_of_ascii a <? 128)%N && is_ascii_string r
  end.

(** The number of code units of a payload: paths, contents and summary. *)
Definition code_units (files : FileMap) (summary : option string) : Z :=
  fold_right (fun pc acc => Z.of_nat (String.length (fst pc))
                            + Z.of_nat (String.length (snd pc)) + acc) 0 files
  + match summary with
    | Some s => Z.of_nat (String.length s)
    | None => 0
    end.

(** The number of [get] calls since the last [clear], given the number
    before the calls. *)
Fixpoint accesses_after (before : Z) (calls : list Call) : Z :=
  match calls with
  | [] => before
  | CallGet _ _ _ _ _ :: rest => accesses_after (before + 1) rest
  | CallClear :: rest => accesses_after 0 rest
  | _ :: rest => accesses_after before rest
  end.

(** A cache of capacity 2 whose oldest entry sits under the empty key. *)
Definition empty_key_cache : EnhancedContextCache :=
  run tiny_platform new_cache
      [CallSetMaxSize 2 999;
       CallSet EmptyString small_files None None 1000 1000;
       CallSet "b" small_files None None 1001 1001].

(** The calls that change a setting. *)
Definition is_setting_call (call : Call) : bool :=
  match call with
  | CallSetMaxSize _ _ | CallSetDefaultExpiry _ | CallSetCompressionEnabled _
  | CallSetAdaptiveExpiryEnabled _ | CallSetMemoryMonitoringEnabled _
  | CallSetAutoCompressionThreshold _ => true
  | _ => false
  end.

(** The property names of an array or a string: its indices. *)
Definition index_names (n : nat) : list string :=
  map (fun i => NilEmpty.string_of_uint (Nat.to_uint i)) (seq 0 n).

(** [Object.keys(contextFiles)]; it throws on [null] and [undefined]. *)
Definition object_keys (cf : ContextFiles) : outcome (list string) :=
  match cf with
  | Plain VUndefined | Plain VNull => Throw "Cannot convert undefined or null to object"
  | Plain (VObj fields) => Return (map fst fields)
  | Plain (VArr items) => Return (index_names (List.length items))
  | Plain (VStr s) => Return (index_names (String.length s))
  | Plain (VBool _) | Plain (VNum _) => Return []
  | Packed b =>
      Return (match _compressed b with VUndefined => [] | _ => ["_compressed"%string] end
              ++ match _originalSize b with None => [] | Some _ => ["_originalSize"%string] end
              ++ match _compressionRatio b with
                 | None => []
                 | Some _ => ["_compressionRatio"%string]
                 end)
  end.

(** [if (!contextFiles.includes(path)) contextFiles.push(path)] *)
Definition push_unique (acc : list string) (path : string) : list string :=
  if existsb (String.eqb path) acc then acc else acc ++ [path].

(** The loop of [getStats] that collects the paths of all entries. *)
Fixpoint collect_paths (m : JsMap EnhancedContextCacheEntry) (acc : list string)
  : outcome (list string) :=
  match m with
  | [] => Return acc
  | (_, entry) :: rest =>
      keys <- object_keys (contextFiles entry) ;;
      collect_paths rest (fold_left push_unique keys acc)
  end.

(** The [contextFiles] field of the snapshot of [getStats]. *)
Definition getStats_contextFiles (c : EnhancedContextCache) : outcome (list string) :=
  collect_paths (cache c) [].

(** Every entry of the store has the property [Q]. *)
Definition all_entries (Q : EnhancedContextCacheEntry -> Prop) (c : EnhancedContextCache)
  : Prop :=
  forall k e, In (k, e) (cache c) -> Q e.

(** A compressed entry has its original size, and a size between 0 and
    that. *)
Definition compressed_size_sound (e : EnhancedContextCacheEntry) : Prop :=
  is_compressed e = true -> exists o, originalSize e = Some o /\ 0 <= size e <= o.

(** [Object.keys] does not throw on the files of the entry. *)
Definition files_enumerable (e : EnhancedContextCacheEntry) : Prop :=
  exists keys, object_keys (contextFiles e) = Return keys.

(** The long-lived entry after nine reads. *)
Definition often_read : EnhancedContextCache :=
  run tiny_platform long_lived (List.repeat (CallGet "k" 2000 2000 2000 2000) 9).

(** * Proofs *)

(** ** The embedding on concrete calls *)

Example trim_both_ends : trim "  src/App.tsx   " = "src/App.tsx"%string.
Proof. reflexivity. Qed.

Example toLowerCase_path : toLowerCase "SRC/App.TSX" = "src/app.tsx"%string.
Proof. reflexivity. Qed.

Example sort_by_code_units : sort ["b"; "a"; "B"; "ab"]%string = ["B"; "a"; "ab"; "b"]%string.
Proof. reflexivity. Qed.

Example key_of_request :
  generateCacheKey tiny_platform (Some " default "%string)
                   ["m1"; " "; "m2"; "m3 "; "m4"]%string ["src/B.ts"; ""; " SRC/a.ts"]%string
  = tiny_stringify
      (VObj [("promptId"%string, VStr "default");
             ("messageIds"%string, VArr [VStr "m2"; VStr "m3"; VStr "m4"]);
             ("filePaths"%string, VArr [VStr "src/a.ts"; VStr "src/b.ts"])]).
Proof. reflexivity. Qed.

Example calculateSize_counts_paths_contents_summary :
  calculateSize [("a.ts", "let a = 1"); ("b.ts", "")]%string (Some "recap"%string) = 22.
Proof. reflexivity. Qed.

Example oldest_is_first_of_the_least :
  getOldestEntry full_cache = Some "a"%string.
Proof. vm_compute. reflexivity. Qed.

Example set_at_capacity_evicts_oldest :
  map fst (cache (set tiny_platform full_cache "c" small_files None None 1002 1002))
  = ["b"; "c"]%string.
Proof. vm_compute. reflexivity. Qed.

Example get_refreshes_timestamp :
  map fst (cache (set tiny_platform
                      (snd (get tiny_platform full_cache "a" 1002 1002 1002 1002))
                      "c" small_files None None 1003 1003))
  = ["a"; "c"]%string.
Proof. vm_compute. reflexivity. Qed.

Example stored_compressed_when_large :
  option_map compressed
    (Map_get "k" (cache (set tiny_platform low_threshold_cache "k" repetitive_files None None
                             1000 1000)))
  = Some (Some true).
Proof. vm_compute. reflexivity. Qed.

Example stats_after_set_and_get :
  let c := set tiny_platform low_threshold_cache "k" repetitive_files None None 1000 1000 in
  (Stats.compressedEntries (getStats c),
   Stats.compressedEntries (getStats (snd (get tiny_platform c "k" 1001 1001 1001 1001))),
   Stats.hits (getStats (snd (get tiny_platform c "k" 1001 1001 1001 1001))))
  = (1, 0, 1).
Proof. vm_compute. reflexivity. Qed.

(** ** Strings *)







Lemma same_case_refl s : same_case s s.
Proof. induction s; constructor; [left; reflexivity | assumption]. Qed.













(** ** Key normalisation *)

Section KeyNormalisation.

Variable P : Platform.


End KeyNormalisation.


(** ** The map of entries *)

Section MapFacts.

Context {V : Type}.
Implicit Types (m : JsMap V) (k : string) (v : V).

Lemma Map_get_set_same k v m : Map_get k (Map_set k v m) = Some v.
Proof.
  unfold Map_get. induction m as [| [k' v'] m IH]; simpl.
  - rewrite String.eqb_refl. reflexivity.
  - destruct (k' =? k)%string eqn:E; simpl.
    + rewrite String.eqb_refl. reflexivity.
    + rewrite E. exact IH.
Qed.

Lemma Map_get_set_other k k' v m : k' <> k -> Map_get k' (Map_set k v m) = Map_get k' m.
Proof.
  intros Hne. unfold Map_get. induction m as [| [k0 v0] m IH]; simpl.
  - apply String.eqb_neq in Hne. rewrite String.eqb_sym, Hne. reflexivity.
  - destruct (k0 =? k)%string eqn:E; simpl.
    + apply String.eqb_eq in E. subst k0.
      apply String.eqb_neq in Hne. rewrite String.eqb_sym, Hne. reflexivity.
    + destruct (k0 =? k')%string; [reflexivity | exact IH].
Qed.

Lemma Map_get_delete_other k k' m : k' <> k -> Map_get k' (Map_delete k m) = Map_get k' m.
Proof.
  intros Hne. unfold Map_get. induction m as [| [k0 v0] m IH]; simpl; [reflexivity |].
  destruct (k0 =? k)%string eqn:E; simpl.
  - apply String.eqb_eq in E. subst k0.
    destruct (k =? k')%string eqn:E'; [| reflexivity].
    apply String.eqb_eq in E'. congruence.
  - destruct (k0 =? k')%string; [reflexivity | exact IH].
Qed.

Lemma Map_get_In k v m : Map_get k m = Some v -> In (k, v) m.
Proof.
  unfold Map_get. induction m as [| [k0 v0] m IH]; simpl; [discriminate |].
  destruct (k0 =? k)%string eqn:E.
  - apply String.eqb_eq in E. intros [= ->]. left. congruence.
  - intros H. right. exact (IH H).
Qed.

Lemma Map_get_None k m : Map_get k m = None <-> ~ In k (map fst m).
Proof.
  unfold Map_get. induction m as [| [k0 v0] m IH]; simpl; [tauto |].
  destruct (k0 =? k)%string eqn:E.
  - apply String.eqb_eq in E. split; [discriminate | intros H; exfalso; apply H; left; exact E].
  - apply String.eqb_neq in E. rewrite IH. tauto.
Qed.

Lemma In_Map_get k v m : well_formed m -> In (k, v) m -> Map_get k m = Some v.
Proof.
  unfold well_formed, Map_get. induction m as [| [k0 v0] m IH]; simpl; [tauto |].
  intros Hnd [Heq | Hin]; inversion Hnd as [| ? ? Hnotin Hnd']; subst.
  - injection Heq as -> ->. rewrite String.eqb_refl. reflexivity.
  - destruct (k0 =? k)%string eqn:E; [| exact (IH Hnd' Hin)].
    apply String.eqb_eq in E. subst k0.
    exfalso. apply Hnotin. apply (in_map fst) in Hin. exact Hin.
Qed.

Lemma Map_delete_keys k m x : In x (map fst (Map_delete k m)) -> In x (map fst m).
Proof.
  induction m as [| [k0 v0] m IH]; simpl; [tauto |].
  destruct (k0 =? k)%string; simpl; tauto.
Qed.

Lemma Map_delete_well_formed k m : well_formed m -> well_formed (Map_delete k m).
Proof.
  unfold well_formed. induction m as [| [k0 v0] m IH]; simpl; [tauto |].
  intros Hnd. inversion Hnd as [| ? ? Hnotin Hnd']; subst.
  destruct (k0 =? k)%string; simpl; [assumption |].
  constructor; [| exact (IH Hnd')].
  intros Hin. apply Hnotin. eapply Map_delete_keys, Hin.
Qed.

Lemma Map_get_delete_same k m : well_formed m -> Map_get k (Map_delete k m) = None.
Proof.
  unfold well_formed. intros Hnd. apply Map_get_None.
  induction m as [| [k0 v0] m IH]; simpl; [tauto |].
  inversion Hnd as [| ? ? Hnotin Hnd']; subst.
  destruct (k0 =? k)%string eqn:E; simpl.
  - apply String.eqb_eq in E. subst k0. exact Hnotin.
  - apply String.eqb_neq in E. intros [H | H]; [congruence | exact (IH Hnd' H)].
Qed.

Lemma Map_set_keys k v m x : In x (map fst (Map_set k v m)) -> x = k \/ In x (map fst m).
Proof.
  induction m as [| [k0 v0] m IH]; simpl.
  - intros [H | []]. left. congruence.
  - destruct (k0 =? k)%string eqn:E; simpl.
    + intros [H | H]; [left; congruence | right; right; exact H].
    + intros [H | H]; [right; left; exact H |].
      destruct (IH H); [left | right; right]; assumption.
Qed.

Lemma Map_set_well_formed k v m : well_formed m -> well_formed (Map_set k v m).
Proof.
  unfold well_formed. induction m as [| [k0 v0] m IH]; simpl.
  - intros _. constructor; [simpl; tauto | constructor].
  - intros Hnd. inversion Hnd as [| ? ? Hnotin Hnd']; subst.
    destruct (k0 =? k)%string eqn:E; simpl.
    + apply String.eqb_eq in E. subst k0. constructor; assumption.
    + apply String.eqb_neq in E. constructor; [| exact (IH Hnd')].
      intros Hin. destruct (Map_set_keys _ _ _ _ Hin); [congruence | contradiction].
Qed.

Lemma filter_well_formed (f : string * V -> bool) m : well_formed m -> well_formed (filter f m).
Proof.
  unfold well_formed. induction m as [| [k0 v0] m IH]; simpl; [tauto |].
  intros Hnd. inversion Hnd as [| ? ? Hnotin Hnd']; subst.
  destruct (f (k0, v0)); simpl; [| exact (IH Hnd')].
  constructor; [| exact (IH Hnd')].
  intros Hin. apply Hnotin.
  apply in_map_iff in Hin as [[k1 v1] [Hk Hin]]. apply filter_In in Hin as [Hin _].
  apply in_map_iff. exists (k1, v1). split; assumption.
Qed.

(** Writing under a key that is present keeps the size; a new key adds one. *)
Lemma Map_set_size k v m :
  Map_size (Map_set k v m) =
  match Map_get k m with Some _ => Map_size m | None => Map_size m + 1 end.
Proof.
  unfold Map_size, Map_get. induction m as [| [k0 v0] m IH]; simpl List.length; simpl assoc.
  - reflexivity.
  - destruct (k0 =? k)%string; simpl List.length; [reflexivity |].
    rewrite !Nat2Z.inj_succ, IH. destruct (assoc k m); lia.
Qed.

Lemma Map_delete_size k m :
  Map_size (Map_delete k m) =
  match Map_get k m with Some _ => Map_size m - 1 | None => Map_size m end.
Proof.
  unfold Map_size, Map_get. induction m as [| [k0 v0] m IH]; simpl List.length; simpl assoc.
  - reflexivity.
  - destruct (k0 =? k)%string; simpl List.length; [lia |].
    rewrite !Nat2Z.inj_succ, IH. destruct (assoc k m); lia.
Qed.

Lemma filter_size (f : string * V -> bool) m : Map_size (filter f m) <= Map_size m.
Proof.
  unfold Map_size. apply inj_le. induction m as [| x m IH]; simpl; [lia |].
  destruct (f x); simpl; lia.
Qed.

End MapFacts.

(** ** Facts about [set] *)

Section SetFacts.

Variable P : Platform.

Lemma evict_if_full_config c :
  maxSize (evict_if_full c) = maxSize c /\
  defaultExpiryMs (evict_if_full c) = defaultExpiryMs c /\
  hits (evict_if_full c) = hits c /\
  misses (evict_if_full c) = misses c /\
  compressionEnabled (evict_if_full c) = compressionEnabled c /\
  adaptiveExpiryEnabled (evict_if_full c) = adaptiveExpiryEnabled c /\
  autoCompressionThreshold (evict_if_full c) = autoCompressionThreshold c.
Proof.
  unfold evict_if_full.
  destruct (maxSize c <=? Map_size (cache c)); [| tauto].
  destruct (getOldestEntry c) as [k |]; [| tauto].
  destruct (truthy_string k); simpl; tauto.
Qed.

Lemma swept_config c t :
  maxSize (swept c t) = maxSize c /\
  defaultExpiryMs (swept c t) = defaultExpiryMs c /\
  hits (swept c t) = hits c /\
  misses (swept c t) = misses c /\
  compressionEnabled (swept c t) = compressionEnabled c /\
  adaptiveExpiryEnabled (swept c t) = adaptiveExpiryEnabled c /\
  autoCompressionThreshold (swept c t) = autoCompressionThreshold c.
Proof. unfold swept. apply (evict_if_full_config (cleanup c t)). Qed.

(** The three ways [compressEntry] ends: the entry as it was, or its packed
    form. *)
Lemma compressEntry_cases c entry :
  compressEntry P c entry = entry \/
  exists serializedData compressedData,
    JSON_stringify P (VObj [("contextFiles"%string, files_to_val (contextFiles entry));
                            ("summary"%string, or_empty (summary entry))])
      = Return serializedData /\
    pako_deflate P (TextEncoder_encode serializedData) = Return compressedData /\
    number_le_zero (compression_percent (Z.of_nat (List.length compressedData)) (size entry))
      = false /\
    compressionEnabled c = true /\
    Qle_bool (inject_Z (size entry)) (autoCompressionThreshold c) = false /\
    (own_key_count (contextFiles entry) =? 0)%nat = false /\
    compressEntry P c entry = packed_form P entry compressedData.
Proof.
  unfold compressEntry, compressEntry_try.
  destruct (compressionEnabled c); simpl; [| left; reflexivity].
  destruct (is_compressed entry); simpl; [left; reflexivity |].
  destruct (Qle_bool _ _); [left; reflexivity |].
  destruct (truthy_files _); simpl; [| left; reflexivity].
  destruct (own_key_count _ =? 0)%nat; [left; reflexivity |].
  destruct (JSON_stringify P _) as [text | msg]; [| left; reflexivity].
  destruct (pako_deflate P _) as [packed | msg] eqn:Hd; simpl; [| left; reflexivity].
  destruct (number_le_zero _) eqn:Hr; simpl; [left; reflexivity |].
  right. exists text, packed. repeat split; solve [reflexivity | assumption].
Qed.

Lemma compressEntry_expiresAt c entry : expiresAt (compressEntry P c entry) = expiresAt entry.
Proof.
  destruct (compressEntry_cases c entry) as [-> | (? & ? & _ & _ & _ & _ & _ & _ & ->)];
    reflexivity.
Qed.

Lemma set_cache c key files summary expiryMs sweepTime now :
  cache (set P c key files summary expiryMs sweepTime now) =
  Map_set key (stored_by_set P c files summary expiryMs sweepTime now)
          (cache (swept c sweepTime)).
Proof. reflexivity. Qed.

Lemma set_lookup c key files summary expiryMs sweepTime now :
  Map_get key (cache (set P c key files summary expiryMs sweepTime now)) =
  Some (stored_by_set P c files summary expiryMs sweepTime now).
Proof. rewrite set_cache. apply Map_get_set_same. Qed.

Lemma set_config c key files summary expiryMs sweepTime now :
  let c' := set P c key files summary expiryMs sweepTime now in
  maxSize c' = maxSize c /\
  defaultExpiryMs c' = defaultExpiryMs c /\
  hits c' = hits c /\
  misses c' = misses c /\
  compressionEnabled c' = compressionEnabled c /\
  adaptiveExpiryEnabled c' = adaptiveExpiryEnabled c /\
  autoCompressionThreshold c' = autoCompressionThreshold c.
Proof. exact (swept_config c sweepTime). Qed.

Lemma stored_by_set_cases c files summary expiryMs sweepTime now :
  let entry := fresh_entry (swept c sweepTime) files summary expiryMs now in
  stored_by_set P c files summary expiryMs sweepTime now = entry \/
  exists serializedData compressedData,
    JSON_stringify P (payload_val files summary) = Return serializedData /\
    pako_deflate P (TextEncoder_encode serializedData) = Return compressedData /\
    number_le_zero (compression_percent (Z.of_nat (List.length compressedData))
                                        (calculateSize files summary)) = false /\
    compressionEnabled c = true /\
    Qle_bool (inject_Z (calculateSize files summary)) (autoCompressionThreshold c) = false /\
    files <> [] /\
    stored_by_set P c files summary expiryMs sweepTime now =
    packed_form P entry compressedData.
Proof.
  intros entry. unfold stored_by_set. fold entry.
  destruct (swept_config c sweepTime) as (_ & _ & _ & _ & Hen & _ & Hth).
  destruct (compressionEnabled (swept c sweepTime) && _); [| left; reflexivity].
  destruct (compressEntry_cases (swept c sweepTime) entry)
    as [-> | (text & packed & Hs & Hd & Hr & He & Hq & Hk & ->)]; [left; reflexivity |].
  right. exists text, packed.
  rewrite Hen in He. rewrite Hth in Hq.
  repeat split; try assumption.
  intros ->. discriminate Hk.
Qed.

End SetFacts.

(** ** Facts about [get] *)

Lemma Map_set_set {V : Type} k (v v' : V) m : Map_set k v' (Map_set k v m) = Map_set k v' m.
Proof.
  induction m as [| [k0 v0] m IH]; simpl.
  - rewrite String.eqb_refl. reflexivity.
  - destruct (k0 =? k)%string eqn:E; simpl.
    + rewrite String.eqb_refl. reflexivity.
    + rewrite E, IH. reflexivity.
Qed.

Lemma expired_true now e : expired now e = true <-> (expiresAt e < inject_Z now)%Q.
Proof.
  unfold expired. rewrite negb_true_iff, <- not_true_iff_false, Qle_bool_iff.
  split; [apply Qnot_le_lt | apply Qlt_not_le].
Qed.

Lemma expired_false now e : expired now e = false <-> (inject_Z now <= expiresAt e)%Q.
Proof. unfold expired. rewrite negb_false_iff. apply Qle_bool_iff. Qed.

Section GetFacts.

Variable P : Platform.

Lemma get_absent c key t0 t1 t2 t3 :
  Map_get key (cache c) = None -> get P c key t0 t1 t2 t3 = (None, count_miss c).
Proof. unfold get. intros ->. reflexivity. Qed.

Lemma get_expired c key e t0 t1 t2 t3 :
  Map_get key (cache c) = Some e -> expired t1 e = true ->
  get P c key t0 t1 t2 t3 = (None, count_miss (with_cache c (Map_delete key (cache c)))).
Proof. unfold get. intros -> ->. reflexivity. Qed.

Lemma get_live c key e t0 t1 t2 t3 :
  Map_get key (cache c) = Some e -> expired t1 e = false ->
  let s := served_by_get P c e t0 t2 t3 in
  get P c key t0 t1 t2 t3 =
  (Some (contextFiles s, summary s), with_cache (count_hit c) (Map_set key s (cache c))).
Proof.
  unfold get, served_by_get. intros -> ->. cbv zeta. simpl cache.
  rewrite Map_set_set. reflexivity.
Qed.

Lemma get_live_parts c key e t0 t1 t2 t3 :
  Map_get key (cache c) = Some e -> expired t1 e = false ->
  fst (get P c key t0 t1 t2 t3) =
    Some (contextFiles (served_by_get P c e t0 t2 t3), summary (served_by_get P c e t0 t2 t3)) /\
  cache (snd (get P c key t0 t1 t2 t3)) = Map_set key (served_by_get P c e t0 t2 t3) (cache c) /\
  hits (snd (get P c key t0 t1 t2 t3)) = hits c + 1 /\
  misses (snd (get P c key t0 t1 t2 t3)) = misses c.
Proof.
  intros Hget Hlive. rewrite (get_live c key e t0 t1 t2 t3 Hget Hlive).
  repeat split.
Qed.

End GetFacts.

(** ** Expiry *)

Section Expiry.

Variable P : Platform.

Lemma set_expiresAt c key files summary expiryMs sweepTime now :
  exists e,
    Map_get key (cache (set P c key files summary expiryMs sweepTime now)) = Some e /\
    (forall ms, expiryMs = Some ms -> ms <> 0 -> expiresAt e = inject_Z (now + ms)) /\
    (expiryMs = None \/ expiryMs = Some 0 -> expiresAt e = inject_Z (now + defaultExpiryMs c)).
Proof.
  exists (stored_by_set P c files summary expiryMs sweepTime now).
  split; [apply set_lookup |].
  assert (He : expiresAt (stored_by_set P c files summary expiryMs sweepTime now) =
               expiresAt (fresh_entry (swept c sweepTime) files summary expiryMs now)).
  { unfold stored_by_set. destruct (_ && _); [apply compressEntry_expiresAt | reflexivity]. }
  rewrite He. simpl.
  destruct (swept_config c sweepTime) as (_ & -> & _).
  split.
  - intros ms -> Hms. apply Z.eqb_neq in Hms. rewrite Hms. reflexivity.
  - intros [-> | ->]; reflexivity.
Qed.

Lemma get_after_expiry c key e t0 t1 t2 t3 :
  well_formed (cache c) ->
  Map_get key (cache c) = Some e ->
  (expiresAt e < inject_Z t1)%Q ->
  fst (get P c key t0 t1 t2 t3) = None /\
  Map_get key (cache (snd (get P c key t0 t1 t2 t3))) = None /\
  misses (snd (get P c key t0 t1 t2 t3)) = misses c + 1 /\
  hits (snd (get P c key t0 t1 t2 t3)) = hits c /\
  (forall k, k <> key ->
     Map_get k (cache (snd (get P c key t0 t1 t2 t3))) = Map_get k (cache c)).
Proof.
  intros Hwf Hget Hexp. apply expired_true in Hexp.
  rewrite (get_expired P c key e t0 t1 t2 t3 Hget Hexp). simpl.
  repeat split; try reflexivity.
  - apply Map_get_delete_same, Hwf.
  - intros k Hk. apply Map_get_delete_other, Hk.
Qed.

(** C4, as the code has it.  The entry [set] stores expires at [now] plus
    the override when an override other than 0 is given, and at [now] plus
    [defaultExpiryMs] when the override is omitted or is 0 (the code reads
    [expiryMs || this.defaultExpiryMs]).  A [get] on a key whose entry has its
    [expiresAt] in the past returns absent, deletes that entry and no other,
    and adds one to [misses]. *)
Theorem expiry_of_set_and_get (c : EnhancedContextCache) (key : string) :
  (forall files summary expiryMs sweepTime now,
     exists e,
       Map_get key (cache (set P c key files summary expiryMs sweepTime now)) = Some e /\
       (forall ms, expiryMs = Some ms -> ms <> 0 -> expiresAt e = inject_Z (now + ms)) /\
       (expiryMs = None \/ expiryMs = Some 0 ->
        expiresAt e = inject_Z (now + defaultExpiryMs c))) /\
  (forall e t0 t1 t2 t3,
     well_formed (cache c) ->
     Map_get key (cache c) = Some e ->
     (expiresAt e < inject_Z t1)%Q ->
     fst (get P c key t0 t1 t2 t3) = None /\
     Map_get key (cache (snd (get P c key t0 t1 t2 t3))) = None /\
     misses (snd (get P c key t0 t1 t2 t3)) = misses c + 1 /\
     hits (snd (get P c key t0 t1 t2 t3)) = hits c /\
     (forall k, k <> key ->
        Map_get k (cache (snd (get P c key t0 t1 t2 t3))) = Map_get k (cache c))).
Proof.
  split.
  - intros. apply set_expiresAt.
  - intros. eapply get_after_expiry; eassumption.
Qed.

End Expiry.

(** C4 fails as stated: [set] with the override 0 stores an entry that
    expires at [now] plus [defaultExpiryMs], not at [now] plus 0. *)
Lemma expiry_override_zero_counterexample :
  exists e,
    Map_get "k" (cache (set tiny_platform new_cache "k" small_files None (Some 0) 1000 1000))
      = Some e /\
    ~ (expiresAt e == inject_Z (1000 + 0))%Q /\
    (expiresAt e == inject_Z (1000 + defaultExpiryMs new_cache))%Q.
Proof.
  eexists. split; [reflexivity |]. split; [| reflexivity].
  intros H. vm_compute in H. discriminate H.
Qed.

Lemma expiry_of_set_and_get_witness :
  fst (get tiny_platform short_lived "k" 1015 1015 1015 1015) = None /\
  misses (snd (get tiny_platform short_lived "k" 1015 1015 1015 1015)) = 1.
Proof.
  destruct (proj2 (expiry_of_set_and_get tiny_platform short_lived "k")
              (stored_by_set tiny_platform new_cache small_files None (Some 10) 1000 1000)
              1015 1015 1015 1015) as (H1 & _ & H2 & _).
  - repeat constructor. simpl. tauto.
  - reflexivity.
  - reflexivity.
  - split; [exact H1 | exact H2].
Defined.

(** ** Corrupt entries *)

Section Corruption.

Variable P : Platform.

Lemma malformed_throws e : malformed P e -> exists msg, decompressEntry_try P e = Throw msg.
Proof.
  unfold decompressEntry_try.
  intros [v Hcf | b Hcf Hns | b Hcf Hempty | b Hcf Hsize | b s msg Hcf Hs Hinf
         | b s bytes msg Hcf Hs Hinf Hparse | b s bytes parsed Hcf Hs Hinf Hparse Hbad];
    rewrite Hcf.
  - eexists. reflexivity.
  - destruct (_compressed b) as [| | | | s | |] eqn:E;
      try (eexists; reflexivity). destruct (Hns s). reflexivity.
  - rewrite Hempty. simpl. eexists. reflexivity.
  - destruct (_compressed b) as [| | | | s | |]; try (eexists; reflexivity).
    destruct (negb (truthy_string s)); [eexists; reflexivity |].
    destruct Hsize as [-> | ->]; eexists; reflexivity.
  - rewrite Hs. destruct (negb (truthy_string s)); [eexists; reflexivity |].
    destruct (_originalSize b) as [o |]; [| eexists; reflexivity].
    destruct (o =? 0); [eexists; reflexivity |].
    rewrite Hinf. simpl. eexists. reflexivity.
  - rewrite Hs. destruct (negb (truthy_string s)); [eexists; reflexivity |].
    destruct (_originalSize b) as [o |]; [| eexists; reflexivity].
    destruct (o =? 0); [eexists; reflexivity |].
    rewrite Hinf. simpl. rewrite Hparse. simpl. eexists. reflexivity.
  - rewrite Hs. destruct (negb (truthy_string s)); [eexists; reflexivity |].
    destruct (_originalSize b) as [o |]; [| eexists; reflexivity].
    destruct (o =? 0); [eexists; reflexivity |].
    rewrite Hinf. simpl. rewrite Hparse. simpl.
    rewrite <- negb_andb, Hbad. simpl. eexists. reflexivity.
Qed.

Lemma decompressEntry_malformed e : malformed P e -> decompressEntry P e = e.
Proof.
  intros H. unfold decompressEntry.
  destruct (negb (is_compressed e)); [reflexivity |].
  destruct (malformed_throws e H) as [msg ->]. reflexivity.
Qed.

(** C1, as the code has it.  A [get] on the key of a live entry whose
    compressed payload is malformed does not throw: [decompressEntry] catches
    the failure and hands the entry back as it was.  The call counts as a
    hit and returns the stored [contextFiles] (the compressed payload) and
    [summary] of that entry, not absent; the entry stays compressed under its
    key, and the entry of every other key can be retrieved unchanged. *)
Theorem get_on_malformed_entry
    (c : EnhancedContextCache) (key : string) (e : EnhancedContextCacheEntry)
    (t0 t1 t2 t3 : Z) :
  Map_get key (cache c) = Some e ->
  is_compressed e = true ->
  malformed P e ->
  (inject_Z t1 <= expiresAt e)%Q ->
  fst (get P c key t0 t1 t2 t3) = Some (contextFiles e, summary e) /\
  hits (snd (get P c key t0 t1 t2 t3)) = hits c + 1 /\
  misses (snd (get P c key t0 t1 t2 t3)) = misses c /\
  (exists e', Map_get key (cache (snd (get P c key t0 t1 t2 t3))) = Some e' /\
              contextFiles e' = contextFiles e /\ compressed e' = compressed e) /\
  (forall k, k <> key ->
     Map_get k (cache (snd (get P c key t0 t1 t2 t3))) = Map_get k (cache c)).
Proof.
  intros Hget Hcomp Hbad Hlive. apply expired_false in Hlive.
  rewrite (get_live P c key e t0 t1 t2 t3 Hget Hlive). cbv zeta.
  assert (Hs : contextFiles (served_by_get P c e t0 t2 t3) = contextFiles e /\
               summary (served_by_get P c e t0 t2 t3) = summary e /\
               compressed (served_by_get P c e t0 t2 t3) = compressed e).
  { unfold served_by_get. rewrite Hcomp, (decompressEntry_malformed e Hbad).
    destruct (adaptiveExpiryEnabled c); simpl; auto. }
  destruct Hs as (Hcf & Hsum & Hco). simpl.
  repeat split.
  - rewrite Hcf, Hsum. reflexivity.
  - eexists. split; [apply Map_get_set_same | split; assumption].
  - intros k Hk. apply Map_get_set_other, Hk.
Qed.

End Corruption.

(** C1 fails as stated: on a compressed entry without a blob, [get] does not
    return absent; it returns the entry's stored payload. *)
Lemma get_on_malformed_entry_counterexample :
  Map_get "bad" (cache corrupt_cache) = Some corrupt_entry /\
  malformed tiny_platform corrupt_entry /\
  fst (get tiny_platform corrupt_cache "bad" 2000 2000 2000 2000) <> None.
Proof.
  split; [reflexivity |]. split.
  - eapply blob_not_a_string; [reflexivity |]. intros s. discriminate.
  - discriminate.
Qed.

Lemma get_on_malformed_entry_witness :
  fst (get tiny_platform corrupt_cache "bad" 2000 2000 2000 2000)
    = Some (contextFiles corrupt_entry, summary corrupt_entry) /\
  Map_get "good" (cache (snd (get tiny_platform corrupt_cache "bad" 2000 2000 2000 2000)))
    = Map_get "good" (cache corrupt_cache).
Proof.
  destruct (get_on_malformed_entry tiny_platform corrupt_cache "bad" corrupt_entry
              2000 2000 2000 2000) as (H1 & _ & _ & _ & H2).
  - reflexivity.
  - reflexivity.
  - eapply blob_not_a_string; [reflexivity |]. intros s. discriminate.
  - vm_compute. discriminate.
  - split; [exact H1 | apply H2; discriminate].
Defined.

(** ** Capacity and eviction *)

Lemma oldest_scan_minimal m k0 t0 :
  exists k,
    oldest_scan m (Some k0) (Some t0) = Some k /\
    ((k = k0 /\ forall k' e', In (k', e') m -> t0 <= timestamp e') \/
     (exists e, In (k, e) m /\ timestamp e < t0 /\
                forall k' e', In (k', e') m -> timestamp e <= timestamp e')).
Proof.
  revert k0 t0. induction m as [| [k1 e1] m IH]; intros k0 t0; simpl.
  - exists k0. split; [reflexivity |]. left. split; [reflexivity | tauto].
  - destruct (timestamp e1 <? t0) eqn:E.
    + apply Z.ltb_lt in E.
      destruct (IH k1 (timestamp e1)) as (k & Hk & [[Heq Hall] | (e & Hin & Hlt & Hall)]);
        exists k; (split; [exact Hk |]); right.
      * subst k. exists e1. split; [left; reflexivity |]. split; [exact E |].
        intros k' e' [[= <- <-] | H]; [lia | eauto].
      * exists e. split; [right; exact Hin |]. split; [lia |].
        intros k' e' [[= <- <-] | H]; [lia | eauto].
    + apply Z.ltb_ge in E.
      destruct (IH k0 t0) as (k & Hk & [[Heq Hall] | (e & Hin & Hlt & Hall)]);
        exists k; (split; [exact Hk |]).
      * left. split; [exact Heq |].
        intros k' e' [[= <- <-] | H]; [lia | eauto].
      * right. exists e. split; [right; exact Hin |]. split; [exact Hlt |].
        intros k' e' [[= <- <-] | H]; [lia | eauto].
Qed.

(** [getOldestEntry] finds an entry with the least [timestamp] of all. *)
Lemma getOldestEntry_minimal c :
  cache c <> [] ->
  exists k e,
    getOldestEntry c = Some k /\ In (k, e) (cache c) /\
    forall k' e', In (k', e') (cache c) -> timestamp e <= timestamp e'.
Proof.
  unfold getOldestEntry. destruct (cache c) as [| [k1 e1] m]; [congruence |]. intros _.
  replace (Map_size ((k1, e1) :: m) =? 0) with false
    by (symmetry; apply Z.eqb_neq; unfold Map_size; simpl List.length; lia).
  simpl.
  destruct (oldest_scan_minimal m k1 (timestamp e1))
    as (k & Hk & [[Heq Hall] | (e & Hin & Hlt & Hall)]).
  - subst k. exists k1, e1. split; [exact Hk |]. split; [left; reflexivity |].
    intros k' e' [[= <- <-] | H]; [lia | eauto].
  - exists k, e. split; [exact Hk |]. split; [right; exact Hin |].
    intros k' e' [[= <- <-] | H]; [lia | eauto].
Qed.

Lemma In_keys {V : Type} k (v : V) (m : JsMap V) : In (k, v) m -> In k (map fst m).
Proof. intros H. apply (in_map fst) in H. exact H. Qed.

Lemma filter_keys {V : Type} (f : string * V -> bool) (m : JsMap V) k :
  In k (map fst (filter f m)) -> In k (map fst m).
Proof.
  intros H. apply in_map_iff in H as [[k1 v1] [Hk Hin]].
  apply filter_In in Hin as [Hin _]. apply in_map_iff. exists (k1, v1). tauto.
Qed.

(** At or above a capacity of at least one, the eviction step removes
    exactly the entry [getOldestEntry] names. *)
Lemma evict_if_full_at_capacity c :
  well_formed (cache c) ->
  (forall k, In k (map fst (cache c)) -> k <> EmptyString) ->
  1 <= maxSize c ->
  maxSize c <= Map_size (cache c) ->
  exists k e,
    Map_get k (cache c) = Some e /\
    (forall k' e', Map_get k' (cache c) = Some e' -> timestamp e <= timestamp e') /\
    cache (evict_if_full c) = Map_delete k (cache c) /\
    Map_size (Map_delete k (cache c)) = Map_size (cache c) - 1.
Proof.
  intros Hwf Hkeys Hpos Hfull.
  assert (Hne : cache c <> []).
  { intros E. rewrite E in Hfull. unfold Map_size in Hfull. simpl in Hfull. lia. }
  destruct (getOldestEntry_minimal c Hne) as (k & e & Hold & Hin & Hmin).
  exists k, e.
  assert (Hget : Map_get k (cache c) = Some e) by (apply In_Map_get; assumption).
  split; [exact Hget |]. split.
  { intros k' e' H. apply (Hmin k'), Map_get_In, H. }
  split.
  - unfold evict_if_full.
    apply Z.leb_le in Hfull. rewrite Hfull, Hold.
    assert (truthy_string k = true) as ->; [| reflexivity].
    unfold truthy_string. apply negb_true_iff, String.eqb_neq, Hkeys.
    eapply In_keys, Hin.
  - rewrite Map_delete_size, Hget. reflexivity.
Qed.

Lemma cleanup_within_capacity c now : within_capacity c -> within_capacity (cleanup c now).
Proof.
  intros [Hwf Hkeys Hpos Hsize]. constructor; simpl.
  - apply filter_well_formed, Hwf.
  - intros k H. apply Hkeys. eapply filter_keys, H.
  - exact Hpos.
  - etransitivity; [apply filter_size | exact Hsize].
Qed.

Lemma evict_if_full_within_capacity c :
  within_capacity c ->
  within_capacity (evict_if_full c) /\
  Map_size (cache (evict_if_full c)) <= maxSize c - 1.
Proof.
  intros [Hwf Hkeys Hpos Hsize].
  destruct (Z.leb_spec (maxSize c) (Map_size (cache c))) as [Hfull | Hroom].
  - destruct (evict_if_full_at_capacity c Hwf Hkeys Hpos Hfull)
      as (k & e & Hget & _ & Hcache & Hdel).
    destruct (evict_if_full_config c) as (Hmax & _).
    split; [constructor |]; rewrite ?Hcache, ?Hmax.
    + apply Map_delete_well_formed, Hwf.
    + intros k' H. apply Hkeys. eapply Map_delete_keys, H.
    + exact Hpos.
    + lia.
    + lia.
  - unfold evict_if_full. apply Z.leb_gt in Hroom. rewrite Hroom.
    apply Z.leb_gt in Hroom. split; [constructor; assumption | lia].
Qed.

Section Capacity.

Variable P : Platform.

Lemma set_within_capacity c key files summary expiryMs sweepTime now :
  key <> EmptyString -> within_capacity c ->
  within_capacity (set P c key files summary expiryMs sweepTime now).
Proof.
  intros Hkey Hc.
  destruct (evict_if_full_within_capacity _ (cleanup_within_capacity c sweepTime Hc))
    as [[Hwf Hkeys Hpos _] Hroom].
  fold (swept c sweepTime) in *. simpl maxSize in Hroom.
  destruct (set_config P c key files summary expiryMs sweepTime now) as (Hmax & _).
  destruct (swept_config c sweepTime) as (Hmax' & _).
  constructor; rewrite ?Hmax, ?set_cache.
  - apply Map_set_well_formed, Hwf.
  - intros k H. destruct (Map_set_keys _ _ _ _ H) as [-> | H']; [exact Hkey | exact (Hkeys k H')].
  - rewrite <- Hmax'. exact Hpos.
  - rewrite Map_set_size. destruct (Map_get key _); lia.
Qed.

Lemma get_within_capacity c key t0 t1 t2 t3 :
  within_capacity c -> within_capacity (snd (get P c key t0 t1 t2 t3)).
Proof.
  intros [Hwf Hkeys Hpos Hsize].
  destruct (Map_get key (cache c)) as [e |] eqn:Hget.
  - destruct (expired t1 e) eqn:Hexp.
    + rewrite (get_expired P c key e t0 t1 t2 t3 Hget Hexp). constructor; simpl.
      * apply Map_delete_well_formed, Hwf.
      * intros k H. apply Hkeys. eapply Map_delete_keys, H.
      * exact Hpos.
      * rewrite Map_delete_size, Hget. lia.
    + rewrite (get_live P c key e t0 t1 t2 t3 Hget Hexp). constructor; simpl.
      * apply Map_set_well_formed, Hwf.
      * intros k H. destruct (Map_set_keys _ _ _ _ H) as [-> | H']; [| exact (Hkeys k H')].
        apply Hkeys. eapply In_keys, Map_get_In, Hget.
      * exact Hpos.
      * rewrite Map_set_size, Hget. exact Hsize.
  - rewrite (get_absent P c key t0 t1 t2 t3 Hget). constructor; assumption.
Qed.

Lemma step_within_capacity c call rest :
  within_capacity c -> bounded_calls (maxSize c) (call :: rest) ->
  within_capacity (step P c call) /\ bounded_calls (maxSize (step P c call)) rest.
Proof.
  intros Hc Hcalls. pose proof Hc as [Hwf Hkeys Hpos Hsize].
  destruct call; simpl in Hcalls; simpl step.
  - destruct Hcalls as [Hkey Hrest]. split; [apply set_within_capacity; assumption |].
    destruct (set_config P c key contextFiles0 summary0 expiryMs sweepTime now) as (-> & _).
    exact Hrest.
  - split; [apply get_within_capacity; assumption |].
    replace (maxSize (snd (get P c key startTime checkTime now adjustTime))) with (maxSize c);
      [exact Hcalls |].
    unfold get. destruct (Map_get key (cache c)) as [e |]; [| reflexivity].
    destruct (expired checkTime e); reflexivity.
  - split; [| exact Hcalls]. constructor; simpl; try assumption.
    + apply Map_delete_well_formed, Hwf.
    + intros k H. apply Hkeys. eapply Map_delete_keys, H.
    + rewrite Map_delete_size. destruct (Map_get key (cache c)); lia.
  - split; [| exact Hcalls]. constructor; simpl; try assumption.
    + constructor.
    + tauto.
    + unfold Map_size. simpl. lia.
  - destruct Hcalls as [Hgrow Hrest]. split; [| exact Hrest].
    constructor; simpl.
    + apply filter_well_formed, Hwf.
    + intros k H. apply Hkeys. eapply filter_keys, H.
    + lia.
    + etransitivity; [apply filter_size | lia].
  - split; [constructor; assumption | exact Hcalls].
  - split; [constructor; assumption | exact Hcalls].
  - split; [constructor; assumption | exact Hcalls].
  - split; [constructor; assumption | exact Hcalls].
  - split; [constructor; assumption | exact Hcalls].
  - pose proof (cleanup_within_capacity c now Hc) as Hc'.
    unfold timer_tick.
    destruct (compressionEnabled (cleanup c now)); [| split; [exact Hc' | exact Hcalls]].
    destruct (negb _); [| split; [exact Hc' | exact Hcalls]].
    split; [| exact Hcalls]. destruct Hc'. constructor; assumption.
Qed.

Lemma run_within_capacity calls : forall c,
  within_capacity c -> bounded_calls (maxSize c) calls -> within_capacity (run P c calls).
Proof.
  induction calls as [| call rest IH]; intros c Hc Hcalls; [exact Hc |].
  destruct (step_within_capacity c call rest Hc Hcalls) as [Hc' Hrest].
  exact (IH _ Hc' Hrest).
Qed.

(** C2, as the code has it.  Take a store with distinct, non-empty keys and
    a maximum of at least one.  If it holds no more entries than the maximum,
    then along every sequence of calls that gives [set] non-empty keys and
    never lowers [maxSize] the number of entries never exceeds the configured
    maximum.  And a [set] that finds the store at or above capacity after
    its expiry sweep evicts exactly one entry, one whose [timestamp] (the
    time of its last touch) is the least of all, before it writes its own. *)
Theorem capacity_and_eviction (c : EnhancedContextCache) :
  well_formed (cache c) ->
  (forall k, In k (map fst (cache c)) -> k <> EmptyString) ->
  1 <= maxSize c ->
  (Map_size (cache c) <= maxSize c ->
   forall calls, bounded_calls (maxSize c) calls ->
     Map_size (cache (run P c calls)) <= maxSize (run P c calls)) /\
  (forall key files summary expiryMs sweepTime now,
     maxSize c <= Map_size (cache (cleanup c sweepTime)) ->
     exists k e,
       Map_get k (cache (cleanup c sweepTime)) = Some e /\
       (forall k' e', Map_get k' (cache (cleanup c sweepTime)) = Some e' ->
                      timestamp e <= timestamp e') /\
       Map_size (Map_delete k (cache (cleanup c sweepTime)))
         = Map_size (cache (cleanup c sweepTime)) - 1 /\
       (forall k', k' <> k ->
          Map_get k' (Map_delete k (cache (cleanup c sweepTime)))
            = Map_get k' (cache (cleanup c sweepTime))) /\
       cache (set P c key files summary expiryMs sweepTime now) =
       Map_set key (stored_by_set P c files summary expiryMs sweepTime now)
               (Map_delete k (cache (cleanup c sweepTime)))).
Proof.
  intros Hwf Hkeys Hpos. split.
  - intros Hsize calls Hcalls.
    apply (run_within_capacity calls c); [constructor |]; assumption.
  - intros key files summary expiryMs sweepTime now Hfull.
    assert (Hwf' : well_formed (cache (cleanup c sweepTime)))
      by apply filter_well_formed, Hwf.
    assert (Hkeys' : forall k, In k (map fst (cache (cleanup c sweepTime))) -> k <> EmptyString)
      by (intros k H; apply Hkeys; eapply filter_keys, H).
    destruct (evict_if_full_at_capacity (cleanup c sweepTime) Hwf' Hkeys' Hpos Hfull)
      as (k & e & Hget & Hmin & Hcache & Hdel).
    exists k, e. repeat split; try assumption.
    + intros k' Hk'. apply Map_get_delete_other, Hk'.
    + rewrite set_cache. unfold swept. rewrite Hcache. reflexivity.
Qed.

End Capacity.

(** C2 fails as stated: after three [set] calls, [setMaxSize(2)] leaves three
    entries under a maximum of two. *)
Lemma capacity_shrink_counterexample :
  Map_size (cache (run tiny_platform new_cache three_then_shrink)) = 3 /\
  maxSize (run tiny_platform new_cache three_then_shrink) = 2 /\
  ~ Map_size (cache (run tiny_platform new_cache three_then_shrink))
      <= maxSize (run tiny_platform new_cache three_then_shrink).
Proof.
  assert (H1 : Map_size (cache (run tiny_platform new_cache three_then_shrink)) = 3)
    by (vm_compute; reflexivity).
  assert (H2 : maxSize (run tiny_platform new_cache three_then_shrink) = 2)
    by (vm_compute; reflexivity).
  rewrite H1, H2. repeat split. lia.
Qed.

Lemma capacity_and_eviction_witness :
  Map_size (cache (run tiny_platform full_cache
                     [CallSet "c" small_files None None 1002 1002]))
    <= maxSize (run tiny_platform full_cache
                  [CallSet "c" small_files None None 1002 1002]) /\
  exists k e,
    Map_get k (cache (cleanup full_cache 1002)) = Some e /\
    cache (set tiny_platform full_cache "c" small_files None None 1002 1002) =
    Map_set "c" (stored_by_set tiny_platform full_cache small_files None None 1002 1002)
            (Map_delete k (cache (cleanup full_cache 1002))).
Proof.
  assert (Hwf : well_formed (cache full_cache)).
  { unfold well_formed. vm_compute. repeat constructor; simpl; intuition discriminate. }
  assert (Hkeys : forall k, In k (map fst (cache full_cache)) -> k <> EmptyString).
  { vm_compute. intros k [<- | [<- | []]]; discriminate. }
  assert (Hpos : 1 <= maxSize full_cache) by (vm_compute; discriminate).
  destruct (capacity_and_eviction tiny_platform full_cache Hwf Hkeys Hpos) as [Hbound Hevict].
  split.
  - apply Hbound.
    + vm_compute. discriminate.
    + simpl. split; [discriminate | exact I].
  - destruct (Hevict "c"%string small_files None None 1002 1002)
      as (k & e & Hget & _ & _ & _ & Hcache).
    + vm_compute. discriminate.
    + exists k, e. split; assumption.
Defined.

(** ** Adaptive expiry *)

Section AdaptiveExpiry.

Variable P : Platform.

(** The two ways [decompressEntry] ends: the entry as it was, or its
    unpacked form. *)
Lemma decompressEntry_cases e :
  decompressEntry P e = e \/
  exists b s o bytes parsedData,
    is_compressed e = true /\
    contextFiles e = Packed b /\ _compressed b = VStr s /\ truthy_string s = true /\
    _originalSize b = Some o /\ o <> 0 /\
    pako_inflate P (base64_decode P s) = Return bytes /\
    JSON_parse P (TextDecoder_decode P bytes) = Return parsedData /\
    truthy (get_prop parsedData "contextFiles")
      && typeof_object (get_prop parsedData "contextFiles") = true /\
    decompressEntry P e = unpacked_form e o parsedData.
Proof.
  unfold decompressEntry, decompressEntry_try.
  destruct (is_compressed e); simpl; [| left; reflexivity].
  destruct (contextFiles e) as [v | b]; [left; reflexivity |].
  destruct (_compressed b) as [| | | | s | |] eqn:Hs; try (left; reflexivity).
  destruct (truthy_string s) eqn:Hts; simpl; [| left; reflexivity].
  destruct (_originalSize b) as [o |] eqn:Ho; [| left; reflexivity].
  destruct (o =? 0) eqn:Hz; [left; reflexivity |].
  destruct (pako_inflate P _) as [bytes | msg] eqn:Hinf; simpl; [| left; reflexivity].
  destruct (JSON_parse P _) as [parsed | msg] eqn:Hparse; simpl; [| left; reflexivity].
  rewrite <- negb_andb.
  destruct (truthy _ && typeof_object _) eqn:Hok; simpl; [| left; reflexivity].
  right. exists b, s, o, bytes, parsed.
  apply Z.eqb_neq in Hz. repeat split; solve [reflexivity | assumption].
Qed.


Lemma decompressEntry_accessCount e : accessCount (decompressEntry P e) = accessCount e.
Proof.
  destruct (decompressEntry_cases e)
    as [-> | (b & s & o & bytes & parsed & _ & _ & _ & _ & _ & _ & _ & _ & _ & ->)];
    reflexivity.
Qed.



End AdaptiveExpiry.



(** ** The compression ratio *)

Lemma calculateSize_nonneg files summary : 0 <= calculateSize files summary.
Proof.
  unfold calculateSize.
  assert (H : forall l a, 0 <= a ->
            0 <= fold_left (fun size pc =>
                   size + Z.of_nat (String.length (fst pc))
                        + Z.of_nat (List.length (TextEncoder_encode (snd pc)))) l a).
  { induction l as [| x l IH]; intros a Ha; simpl; [exact Ha | apply IH; lia]. }
  specialize (H files 0 (Z.le_refl 0)).
  destruct summary as [s |]; [destruct (truthy_string s) |]; lia.
Qed.

Lemma quotient_below_one (c o : Z) :
  0 < o -> c < o -> (inject_Z c / inject_Z o < 1)%Q.
Proof.
  intros Ho Hc. apply Qlt_shift_div_r.
  - change 0%Q with (inject_Z 0). rewrite <- Zlt_Qlt. exact Ho.
  - rewrite Qmult_1_l, <- Zlt_Qlt. exact Hc.
Qed.

Lemma quotient_above_one (c o : Z) :
  0 < o -> o <= c -> (1 <= inject_Z c / inject_Z o)%Q.
Proof.
  intros Ho Hc. apply Qle_shift_div_l.
  - change 0%Q with (inject_Z 0). rewrite <- Zlt_Qlt. exact Ho.
  - rewrite Qmult_1_l, <- Zle_Qle. exact Hc.
Qed.

(** A strictly smaller output has a positive ratio. *)
Lemma ratio_positive (c o : Z) :
  0 <= c -> c < o -> number_le_zero (compression_percent c o) = false.
Proof.
  intros Hc Hlt. unfold compression_percent.
  replace (o =? 0) with false by (symmetry; apply Z.eqb_neq; lia).
  simpl. apply not_true_iff_false. rewrite Qle_bool_iff.
  pose proof (quotient_below_one c o ltac:(lia) Hlt). lra.
Qed.

(** A non-empty output that is not smaller has a ratio of zero or less. *)
Lemma ratio_not_positive (c o : Z) :
  0 < c -> 0 <= o -> o <= c -> number_le_zero (compression_percent c o) = true.
Proof.
  intros Hc Ho Hle. unfold compression_percent.
  destruct (Z.eqb_spec o 0) as [-> | Hne].
  - replace (c =? 0) with false by (symmetry; apply Z.eqb_neq; lia).
    replace (0 <? c) with true by (symmetry; apply Z.ltb_lt; lia). reflexivity.
  - simpl. rewrite Qle_bool_iff.
    pose proof (quotient_above_one c o ltac:(lia) Hle). lra.
Qed.

(** What the guard lets through is smaller than the original, or empty
    for an empty original. *)
Lemma ratio_kept (c o : Z) :
  0 <= c -> 0 <= o -> number_le_zero (compression_percent c o) = false ->
  c < o \/ (c = 0 /\ o = 0).
Proof.
  intros Hc Ho H.
  destruct (Z.eq_dec c 0) as [-> | Hc0].
  - destruct (Z.eq_dec o 0); [right; tauto | left; lia].
  - destruct (Z.lt_ge_cases c o) as [Hlt | Hge]; [left; exact Hlt |].
    rewrite (ratio_not_positive c o) in H by lia. discriminate.
Qed.

(** ** Round trip through compression *)

Lemma or_empty_summary summary :
  or_empty (summary_val summary) =
  match summary with
  | Some s => VStr s
  | None => VStr EmptyString
  end.
Proof.
  destruct summary as [s |]; [| reflexivity].
  unfold or_empty. simpl. unfold truthy_string.
  destruct (String.eqb_spec s EmptyString) as [-> | _]; reflexivity.
Qed.

Section RoundTrip.

Variable P : Platform.

(** The packed form of a fresh entry unpacks to the caller's files and the
    serialised summary. *)
Lemma decompressEntry_packed_form c files summary expiryMs now compressedData text :
  round_trips P (payload_val files summary) ->
  JSON_stringify P (payload_val files summary) = Return text ->
  pako_deflate P (TextEncoder_encode text) = Return compressedData ->
  number_le_zero (compression_percent (Z.of_nat (List.length compressedData))
                                      (calculateSize files summary)) = false ->
  let entry := fresh_entry c files summary expiryMs now in
  decompressEntry P (packed_form P entry compressedData) =
  unpacked_form (packed_form P entry compressedData) (calculateSize files summary)
                (payload_val files summary).
Proof.
  intros Hrt Hs Hd Hratio entry.
  destruct (Hrt text compressedData Hs Hd) as (Hne & H64 & bytes & Hinf & Hparse).
  assert (Hsize : calculateSize files summary <> 0).
  { intros E. rewrite E in Hratio.
    rewrite ratio_not_positive in Hratio; [discriminate | | lia | lia].
    destruct compressedData; [congruence | simpl; lia]. }
  unfold decompressEntry, decompressEntry_try. simpl.
  rewrite H64. simpl.
  apply Z.eqb_neq in Hsize. rewrite Hsize, Hinf. simpl. rewrite Hparse. reflexivity.
Qed.

(** What a [get] returns right after a [set] under the same key. *)
Lemma get_after_set c key files summary expiryMs sweepTime now t0 t1 t2 t3 :
  round_trips P (payload_val files summary) ->
  (inject_Z t1 <= expiresAt (stored_by_set P c files summary expiryMs sweepTime now))%Q ->
  let c' := set P c key files summary expiryMs sweepTime now in
  exists returned,
    fst (get P c' key t0 t1 t2 t3) = Some (Plain (files_val files), returned) /\
    hits (snd (get P c' key t0 t1 t2 t3)) = hits c + 1 /\
    misses (snd (get P c' key t0 t1 t2 t3)) = misses c /\
    ((compressed (stored_by_set P c files summary expiryMs sweepTime now) = None /\
      returned = summary_val summary) \/
     (compressed (stored_by_set P c files summary expiryMs sweepTime now) = Some true /\
      compressionEnabled c = true /\ files <> [] /\
      returned = or_empty (summary_val summary))).
Proof.
  intros Hrt Hlive c'. apply expired_false in Hlive.
  pose proof (set_lookup P c key files summary expiryMs sweepTime now) as Hget.
  destruct (get_live_parts P _ key _ t0 t1 t2 t3 Hget Hlive) as (Hfst & _ & Hhits & Hmiss).
  destruct (set_config P c key files summary expiryMs sweepTime now) as (_ & _ & Hh & Hm & _).
  subst c'. rewrite Hfst, Hhits, Hmiss, Hh, Hm.
  set (c' := set P c key files summary expiryMs sweepTime now).
  destruct (stored_by_set_cases P c files summary expiryMs sweepTime now)
    as [Hst | (text & packed & Hs & Hd & Hr & Hen & _ & Hfiles & Hst)];
    cbv zeta in Hst; rewrite Hst.
  - exists (summary_val summary). unfold served_by_get. simpl is_compressed. cbv iota.
    repeat split; [| left; split; reflexivity].
    destruct (adaptiveExpiryEnabled c'); reflexivity.
  - exists (or_empty (summary_val summary)). unfold served_by_get.
    simpl is_compressed. cbv iota.
    rewrite (decompressEntry_packed_form _ files summary expiryMs now packed text Hrt Hs Hd Hr).
    repeat split; [| right; repeat split; assumption].
    destruct (adaptiveExpiryEnabled c'); reflexivity.
Qed.

(** C6, as the code has it.  For a payload whose computed size exceeds the
    compression threshold and that deflate strictly shrinks, on a platform
    that gives back what it packed, [set] followed by [get] before expiry
    returns the same [contextFiles] mapping, and the same summary when the
    payload has one.  When compression is enabled and the mapping is not
    empty the entry is stored compressed, and a payload without summary
    comes back with the empty string as its summary. *)
Theorem compression_round_trip
    (c : EnhancedContextCache) (key : string) (files : FileMap) (summary : option string)
    (expiryMs : option Z) (sweepTime now t0 t1 t2 t3 : Z)
    (serializedData : string) (compressedData : list byte) :
  (autoCompressionThreshold c < inject_Z (calculateSize files summary))%Q ->
  JSON_stringify P (payload_val files summary) = Return serializedData ->
  pako_deflate P (TextEncoder_encode serializedData) = Return compressedData ->
  Z.of_nat (List.length compressedData) < calculateSize files summary ->
  round_trips P (payload_val files summary) ->
  (inject_Z t1 <= expiresAt (stored_by_set P c files summary expiryMs sweepTime now))%Q ->
  exists returned,
    fst (get P (set P c key files summary expiryMs sweepTime now) key t0 t1 t2 t3)
      = Some (Plain (files_val files), returned) /\
    (forall s, summary = Some s -> returned = VStr s) /\
    (compressionEnabled c = true -> files <> [] ->
     compressed (stored_by_set P c files summary expiryMs sweepTime now) = Some true /\
     (summary = None -> returned = VStr EmptyString)).
Proof.
  intros Hth Hs Hd Hshrink Hrt Hlive.
  destruct (get_after_set c key files summary expiryMs sweepTime now t0 t1 t2 t3 Hrt Hlive)
    as (returned & Hret & _ & _ & Hcases).
  exists returned. split; [exact Hret |].
  destruct Hcases as [[Hplain ->] | (Hpacked & _ & _ & ->)].
  - split; [intros s ->; reflexivity |].
    intros Hen Hfiles. exfalso. revert Hplain.
    unfold stored_by_set.
    destruct (swept_config c sweepTime) as (_ & _ & _ & _ & -> & _ & ->).
    rewrite Hen. simpl size.
    replace (Qle_bool (inject_Z (calculateSize files summary)) (autoCompressionThreshold c))
      with false by (symmetry; apply not_true_iff_false; rewrite Qle_bool_iff;
                     apply Qlt_not_le, Hth).
    simpl. unfold compressEntry, compressEntry_try.
    destruct (swept_config c sweepTime) as (_ & _ & _ & _ & -> & _ & ->).
    rewrite Hen. simpl.
    replace (Qle_bool (inject_Z (calculateSize files summary)) (autoCompressionThreshold c))
      with false by (symmetry; apply not_true_iff_false; rewrite Qle_bool_iff;
                     apply Qlt_not_le, Hth).
    destruct files as [| f files]; [congruence |].
    simpl own_key_count. cbv iota.
    change (VObj _) with (payload_val (f :: files) summary).
    rewrite Hs. simpl. rewrite Hd. simpl.
    rewrite ratio_positive by lia. simpl. discriminate.
  - rewrite or_empty_summary. split; [intros s ->; reflexivity |].
    intros _ _. split; [exact Hpacked | intros ->; reflexivity].
Qed.

End RoundTrip.

(** C6 fails as stated: a payload without summary that exceeds the threshold
    and that the compressor shrinks comes back from [get] with the empty
    string as its summary, so it is not deep-equal to what was stored. *)
Lemma compression_round_trip_counterexample :
  (autoCompressionThreshold low_threshold_cache
     < inject_Z (calculateSize repetitive_files None))%Q /\
  (exists serializedData compressedData,
     JSON_stringify tiny_platform (payload_val repetitive_files None) = Return serializedData /\
     pako_deflate tiny_platform (TextEncoder_encode serializedData) = Return compressedData /\
     Z.of_nat (List.length compressedData) < calculateSize repetitive_files None) /\
  fst (get tiny_platform
           (set tiny_platform low_threshold_cache "k" repetitive_files None None 1000 1000)
           "k" 1001 1001 1001 1001)
    <> Some (Plain (files_val repetitive_files), summary_val None).
Proof.
  split; [vm_compute; reflexivity |]. split.
  - eexists. eexists. split; [vm_compute; reflexivity |].
    split; [vm_compute; reflexivity |]. vm_compute. reflexivity.
  - vm_compute. discriminate.
Qed.

Lemma compression_round_trip_witness :
  exists returned,
    fst (get tiny_platform
             (set tiny_platform low_threshold_cache "k" repetitive_files (Some "recap"%string)
                  None 1000 1000)
             "k" 1001 1001 1001 1001)
      = Some (Plain (files_val repetitive_files), returned) /\
    returned = VStr "recap".
Proof.
  edestruct (compression_round_trip tiny_platform low_threshold_cache "k" repetitive_files
               (Some "recap"%string) None 1000 1000 1001 1001 1001 1001)
    as (returned & H1 & H2 & _).
  - vm_compute. reflexivity.
  - vm_compute. reflexivity.
  - vm_compute. reflexivity.
  - vm_compute. reflexivity.
  - intros text packed Hs Hd.
    vm_compute in Hs. injection Hs as <-.
    vm_compute in Hd. injection Hd as <-.
    split; [discriminate |]. split; [vm_compute; reflexivity |].
    eexists. split; vm_compute; reflexivity.
  - vm_compute. discriminate.
  - exists returned. split; [exact H1 | apply H2; reflexivity].
Defined.

(** ** Miss, then hit *)

Section MissThenHit.

Variable P : Platform.

(** C8, as the code has it.  A [get] on a key that is not in the store
    returns absent and adds exactly one to [misses].  After [set(key, v)], on
    a platform that gives back what it packed, a [get(key)] before expiry
    adds exactly one to [hits] and returns the [contextFiles] of [v] and
    the summary of [v]; only when [v] has no summary and went through
    compression is the returned summary the empty string. *)
Theorem miss_then_hit (c : EnhancedContextCache) (key : string) :
  (forall t0 t1 t2 t3,
     Map_get key (cache c) = None ->
     fst (get P c key t0 t1 t2 t3) = None /\
     misses (snd (get P c key t0 t1 t2 t3)) = misses c + 1 /\
     hits (snd (get P c key t0 t1 t2 t3)) = hits c /\
     cache (snd (get P c key t0 t1 t2 t3)) = cache c) /\
  (forall files summary expiryMs sweepTime now t0 t1 t2 t3,
     round_trips P (payload_val files summary) ->
     (forall e, Map_get key (cache (set P c key files summary expiryMs sweepTime now)) = Some e ->
                (inject_Z t1 <= expiresAt e)%Q) ->
     exists returned,
       fst (get P (set P c key files summary expiryMs sweepTime now) key t0 t1 t2 t3)
         = Some (Plain (files_val files), returned) /\
       (returned = summary_val summary \/
        (summary = None /\ returned = VStr EmptyString /\
         compressed (stored_by_set P c files summary expiryMs sweepTime now) = Some true)) /\
       hits (snd (get P (set P c key files summary expiryMs sweepTime now) key t0 t1 t2 t3))
         = hits (set P c key files summary expiryMs sweepTime now) + 1 /\
       misses (snd (get P (set P c key files summary expiryMs sweepTime now) key t0 t1 t2 t3))
         = misses (set P c key files summary expiryMs sweepTime now)).
Proof.
  split.
  - intros t0 t1 t2 t3 Hnone. rewrite (get_absent P c key t0 t1 t2 t3 Hnone).
    repeat split.
  - intros files summary expiryMs sweepTime now t0 t1 t2 t3 Hrt Hlive.
    specialize (Hlive _ (set_lookup P c key files summary expiryMs sweepTime now)).
    destruct (get_after_set P c key files summary expiryMs sweepTime now t0 t1 t2 t3 Hrt Hlive)
      as (returned & Hret & Hh & Hm & Hcases).
    destruct (set_config P c key files summary expiryMs sweepTime now)
      as (_ & _ & Hh' & Hm' & _).
    exists returned. rewrite Hh, Hm, Hh', Hm'. repeat split; try assumption.
    destruct Hcases as [[_ ->] | (Hpacked & _ & _ & ->)]; [left; reflexivity |].
    rewrite or_empty_summary.
    destruct summary as [s |]; [left; reflexivity | right; repeat split; assumption].
Qed.

End MissThenHit.

(** C8 fails as stated, on the end-to-end scenario of the specification: the
    value [get] returns after [set] has the summary set to the empty string,
    which the stored value did not have. *)
Lemma miss_then_hit_counterexample :
  fst (get tiny_platform scenario_cache scenario_key 1001 1001 1001 1001)
    = Some (Plain (files_val scenario_files), VStr EmptyString) /\
  fst (get tiny_platform scenario_cache scenario_key 1001 1001 1001 1001)
    <> Some (Plain (files_val scenario_files), summary_val None).
Proof.
  assert (H : fst (get tiny_platform scenario_cache scenario_key 1001 1001 1001 1001)
              = Some (Plain (files_val scenario_files), VStr EmptyString))
    by (vm_compute; reflexivity).
  split; [exact H |]. intros E. pose proof (eq_trans (eq_sym H) E) as E'. discriminate E'.
Qed.

Lemma miss_then_hit_witness :
  fst (get tiny_platform new_cache "k" 1000 1000 1000 1000) = None /\
  misses (snd (get tiny_platform new_cache "k" 1000 1000 1000 1000)) = misses new_cache + 1.
Proof.
  destruct (proj1 (miss_then_hit tiny_platform new_cache "k") 1000 1000 1000 1000)
    as (H1 & H2 & _).
  - reflexivity.
  - split; [exact H1 | exact H2].
Defined.

(** ** Compressed entries *)

Lemma Map_set_In {V : Type} k (v : V) m x : In x (Map_set k v m) -> x = (k, v) \/ In x m.
Proof.
  induction m as [| [k0 v0] m IH]; simpl.
  - intros [H | []]. left. congruence.
  - destruct (k0 =? k)%string; simpl.
    + intros [H | H]; [left; congruence | right; right; exact H].
    + intros [H | H]; [right; left; exact H |].
      destruct (IH H); [left | right; right]; assumption.
Qed.

Lemma Map_delete_In {V : Type} k (m : JsMap V) x : In x (Map_delete k m) -> In x m.
Proof.
  induction m as [| [k0 v0] m IH]; simpl; [tauto |].
  destruct (k0 =? k)%string; simpl; tauto.
Qed.

Section CompressedEntries.

Variable P : Platform.

Lemma stored_by_set_shrunk c files summary expiryMs sweepTime now :
  let e := stored_by_set P c files summary expiryMs sweepTime now in
  is_compressed e = true -> exists o, originalSize e = Some o /\ size e <= o.
Proof.
  destruct (stored_by_set_cases P c files summary expiryMs sweepTime now)
    as [Hst | (text & packed & _ & _ & Hr & _ & _ & _ & Hst)];
    cbv zeta in *; rewrite Hst.
  - discriminate.
  - intros _. exists (calculateSize files summary). split; [reflexivity |].
    simpl size.
    destruct (ratio_kept _ _ (Nat2Z.is_nonneg _) (calculateSize_nonneg files summary) Hr);
      lia.
Qed.

Lemma served_by_get_shrunk c e t0 t2 t3 :
  (is_compressed e = true -> exists o, originalSize e = Some o /\ size e <= o) ->
  let e' := served_by_get P c e t0 t2 t3 in
  is_compressed e' = true -> exists o, originalSize e' = Some o /\ size e' <= o.
Proof.
  intros He. unfold served_by_get.
  set (d := if is_compressed e then decompressEntry P e else e).
  assert (Hd : is_compressed d = true -> exists o, originalSize d = Some o /\ size d <= o).
  { unfold d. destruct (is_compressed e) eqn:Hc; [| rewrite Hc; discriminate].
    destruct (decompressEntry_cases P e)
      as [-> | (b & s & o & bytes & parsed & _ & _ & _ & _ & _ & _ & _ & _ & _ & ->)].
    - intros _. apply He. reflexivity.
    - discriminate. }
  destruct (adaptiveExpiryEnabled c); exact Hd.
Qed.

Lemma set_shrunk c key files summary expiryMs sweepTime now :
  compressed_entries_shrunk c ->
  compressed_entries_shrunk (set P c key files summary expiryMs sweepTime now).
Proof.
  intros Hc k e Hin. rewrite set_cache in Hin.
  apply Map_set_In in Hin as [[= -> ->] | Hin]; [apply stored_by_set_shrunk |].
  apply (Hc k). unfold swept, evict_if_full in Hin.
  assert (Hsub : forall x, In x (cache (cleanup c sweepTime)) -> In x (cache c)).
  { intros x Hx. simpl in Hx. apply filter_In in Hx. tauto. }
  destruct (maxSize (cleanup c sweepTime) <=? Map_size (cache (cleanup c sweepTime)));
    [| exact (Hsub _ Hin)].
  destruct (getOldestEntry (cleanup c sweepTime)) as [oldest |]; [| exact (Hsub _ Hin)].
  destruct (truthy_string oldest); [| exact (Hsub _ Hin)].
  apply Hsub. eapply Map_delete_In, Hin.
Qed.

Lemma get_shrunk c key t0 t1 t2 t3 :
  compressed_entries_shrunk c ->
  compressed_entries_shrunk (snd (get P c key t0 t1 t2 t3)).
Proof.
  intros Hc. destruct (Map_get key (cache c)) as [e |] eqn:Hget.
  - destruct (expired t1 e) eqn:Hexp.
    + rewrite (get_expired P c key e t0 t1 t2 t3 Hget Hexp).
      intros k e' Hin. apply (Hc k). eapply Map_delete_In, Hin.
    + rewrite (get_live P c key e t0 t1 t2 t3 Hget Hexp).
      intros k e' Hin. simpl in Hin.
      apply Map_set_In in Hin as [[= -> ->] | Hin]; [| exact (Hc k e' Hin)].
      apply served_by_get_shrunk. apply (Hc key). apply Map_get_In, Hget.
  - rewrite (get_absent P c key t0 t1 t2 t3 Hget). exact Hc.
Qed.

Lemma cleanup_shrunk c now :
  compressed_entries_shrunk c -> compressed_entries_shrunk (cleanup c now).
Proof. intros Hc k e Hin. simpl in Hin. apply filter_In in Hin. apply (Hc k), Hin. Qed.

Lemma step_shrunk c call :
  compressed_entries_shrunk c -> compressed_entries_shrunk (step P c call).
Proof.
  intros Hc. destruct call; simpl step; try exact Hc.
  - apply set_shrunk, Hc.
  - apply get_shrunk, Hc.
  - intros k e Hin. apply (Hc k). eapply Map_delete_In, Hin.
  - intros k e [].
  - intros k e Hin. simpl in Hin. apply filter_In in Hin. apply (Hc k), Hin.
  - unfold timer_tick. pose proof (cleanup_shrunk c now Hc) as Hc'.
    destruct (compressionEnabled (cleanup c now)); [| exact Hc'].
    destruct (negb _); exact Hc'.
Qed.

Lemma run_shrunk calls : forall c,
  compressed_entries_shrunk c -> compressed_entries_shrunk (run P c calls).
Proof.
  induction calls as [| call rest IH]; intros c Hc; [exact Hc |].
  apply IH, step_shrunk, Hc.
Qed.

Lemma set_below_threshold c files summary expiryMs sweepTime now :
  (inject_Z (calculateSize files summary) <= autoCompressionThreshold c)%Q ->
  stored_by_set P c files summary expiryMs sweepTime now =
  fresh_entry (swept c sweepTime) files summary expiryMs now.
Proof.
  intros Hle. unfold stored_by_set.
  destruct (swept_config c sweepTime) as (_ & _ & _ & _ & _ & _ & ->).
  apply Qle_bool_iff in Hle. simpl size. rewrite Hle, andb_false_r. reflexivity.
Qed.

Lemma set_without_shrinkage c files summary expiryMs sweepTime now text packed :
  JSON_stringify P (payload_val files summary) = Return text ->
  pako_deflate P (TextEncoder_encode text) = Return packed ->
  packed <> [] ->
  calculateSize files summary <= Z.of_nat (List.length packed) ->
  stored_by_set P c files summary expiryMs sweepTime now =
  fresh_entry (swept c sweepTime) files summary expiryMs now.
Proof.
  intros Hs Hd Hne Hle.
  destruct (stored_by_set_cases P c files summary expiryMs sweepTime now)
    as [Hst | (text' & packed' & Hs' & Hd' & Hr & _)]; [exact Hst |].
  rewrite Hs in Hs'. injection Hs' as <-.
  rewrite Hd in Hd'. injection Hd' as <-.
  rewrite ratio_not_positive in Hr; [discriminate | | apply calculateSize_nonneg | exact Hle].
  destruct packed; [congruence | simpl; lia].
Qed.

(** C7.  In every state the constructor's cache reaches, an entry with
    [compressed == true] carries an [originalSize] and has [size] no larger.
    [set] stores an entry whose computed size is at or below the compression
    threshold uncompressed, and it stores the entry uncompressed when the
    output of the compressor, which is never empty, is not smaller than the
    computed size (a ratio of zero or less). *)
Theorem compression_invariants :
  (forall calls k e,
     Map_get k (cache (run P new_cache calls)) = Some e ->
     compressed e = Some true ->
     exists o, originalSize e = Some o /\ size e <= o) /\
  (forall c key files summary expiryMs sweepTime now,
     (inject_Z (calculateSize files summary) <= autoCompressionThreshold c)%Q ->
     exists e,
       Map_get key (cache (set P c key files summary expiryMs sweepTime now)) = Some e /\
       compressed e = None /\
       contextFiles e = Plain (files_val files) /\
       size e = calculateSize files summary) /\
  (forall c key files summary expiryMs sweepTime now serializedData compressedData,
     JSON_stringify P (payload_val files summary) = Return serializedData ->
     pako_deflate P (TextEncoder_encode serializedData) = Return compressedData ->
     compressedData <> [] ->
     calculateSize files summary <= Z.of_nat (List.length compressedData) ->
     exists e,
       Map_get key (cache (set P c key files summary expiryMs sweepTime now)) = Some e /\
       compressed e = None /\
       contextFiles e = Plain (files_val files) /\
       size e = calculateSize files summary).
Proof.
  split; [| split].
  - intros calls k e Hget Hcomp.
    assert (Hinit : compressed_entries_shrunk new_cache) by (intros ? ? []).
    apply (run_shrunk calls new_cache Hinit k e (Map_get_In _ _ _ Hget)).
    unfold is_compressed. rewrite Hcomp. reflexivity.
  - intros c key files summary expiryMs sweepTime now Hle.
    exists (stored_by_set P c files summary expiryMs sweepTime now).
    split; [apply set_lookup |].
    rewrite (set_below_threshold c files summary expiryMs sweepTime now Hle).
    repeat split.
  - intros c key files summary expiryMs sweepTime now text packed Hs Hd Hne Hle.
    exists (stored_by_set P c files summary expiryMs sweepTime now).
    split; [apply set_lookup |].
    rewrite (set_without_shrinkage c files summary expiryMs sweepTime now text packed
               Hs Hd Hne Hle).
    repeat split.
Qed.

(** ** Failures inside [set] *)

(** C9.  [set] completes for every key, payload and expiry override and
    leaves an entry under the key: the only steps of it that can throw,
    [JSON.stringify] and [pako.deflate], run inside the [try] of
    [compressEntry], whose [catch] gives the entry back as it was.  When
    either of them throws, the entry is stored uncompressed. *)
Theorem set_survives_failures
    (c : EnhancedContextCache) (key : string) (files : FileMap) (summary : option string)
    (expiryMs : option Z) (sweepTime now : Z) :
  (exists e, Map_get key (cache (set P c key files summary expiryMs sweepTime now)) = Some e) /\
  (forall entry msg, compressEntry_try P c entry = Throw msg -> compressEntry P c entry = entry) /\
  ((exists msg, JSON_stringify P (payload_val files summary) = Throw msg) \/
   (exists serializedData msg,
      JSON_stringify P (payload_val files summary) = Return serializedData /\
      pako_deflate P (TextEncoder_encode serializedData) = Throw msg) ->
   exists e,
     Map_get key (cache (set P c key files summary expiryMs sweepTime now)) = Some e /\
     e = fresh_entry (swept c sweepTime) files summary expiryMs now /\
     compressed e = None /\
     contextFiles e = Plain (files_val files)).
Proof.
  split; [eexists; apply set_lookup |]. split.
  - intros entry msg H. unfold compressEntry. rewrite H. reflexivity.
  - intros Hfail.
    exists (stored_by_set P c files summary expiryMs sweepTime now).
    split; [apply set_lookup |].
    assert (Hst : stored_by_set P c files summary expiryMs sweepTime now =
                  fresh_entry (swept c sweepTime) files summary expiryMs now).
    { destruct (stored_by_set_cases P c files summary expiryMs sweepTime now)
        as [Hst | (text' & packed' & Hs' & Hd' & _)]; [exact Hst |].
      destruct Hfail as [[msg Hs] | (text & msg & Hs & Hd)]; [congruence |].
      rewrite Hs in Hs'. injection Hs' as <-. congruence. }
    rewrite Hst. repeat split.
Qed.

End CompressedEntries.

Lemma compression_invariants_witness :
  exists e,
    Map_get "k" (cache (set tiny_platform new_cache "k" small_files None None 1000 1000))
      = Some e /\
    compressed e = None.
Proof.
  destruct (proj1 (proj2 (compression_invariants tiny_platform))
              new_cache "k"%string small_files None None 1000 1000) as (e & H1 & H2 & _).
  - vm_compute. discriminate.
  - exists e. split; assumption.
Defined.

Lemma set_survives_failures_witness :
  exists e,
    Map_get "k" (cache (set throwing_platform low_threshold_cache "k" repetitive_files None
                            None 1000 1000)) = Some e /\
    compressed e = None.
Proof.
  destruct (proj2 (proj2 (set_survives_failures throwing_platform low_threshold_cache "k"
                            repetitive_files None None 1000 1000)))
    as (e & H1 & _ & H2 & _).
  - left. eexists. reflexivity.
  - exists e. split; assumption.
Defined.

(** ** Decompression on [get] *)

Lemma sum_over_from f m a :
  fold_left (fun acc ke => acc + f (snd ke)) m a = a + sum_over f m.
Proof.
  unfold sum_over. revert a.
  induction m as [| x m IH]; intros a; simpl; [lia |].
  rewrite (IH (a + f (snd x))), (IH (f (snd x))). lia.
Qed.

Lemma sum_over_cons f k e m : sum_over f ((k, e) :: m) = f e + sum_over f m.
Proof. unfold sum_over at 1. simpl. apply sum_over_from. Qed.

(** Writing an entry under a key changes a sum over the entries by what the
    old entry of that key contributed and the new one contributes. *)
Lemma sum_over_Map_set f k e m :
  sum_over f (Map_set k e m) =
  sum_over f m - match Map_get k m with Some old => f old | None => 0 end + f e.
Proof.
  unfold Map_get. induction m as [| [k0 e0] m IH]; simpl.
  - rewrite sum_over_cons. unfold sum_over. simpl. lia.
  - destruct (k0 =? k)%string; rewrite !sum_over_cons; [lia |].
    rewrite IH. lia.
Qed.

Section Decompression.

Variable P : Platform.

Lemma decompressEntry_unpacks e o parsedData :
  unpacks P e o parsedData -> decompressEntry P e = unpacked_form e o parsedData.
Proof.
  intros [Hc (b & s & bytes & Hcf & Hs & Hts & Ho & Hinf & Hparse) Hne Hok].
  unfold decompressEntry, decompressEntry_try.
  rewrite Hc, Hcf, Hs, Hts, Ho. simpl.
  apply Z.eqb_neq in Hne. rewrite Hne, Hinf. simpl. rewrite Hparse. simpl.
  rewrite <- negb_andb, Hok. reflexivity.
Qed.

(** C10.  After a [get] that decompresses a compressed entry, the cache
    holds under that key the decompressed form: [compressed] is [false],
    [size] is the original size recorded with the blob, and [contextFiles]
    are the parsed file contents, which is also what the call returns.  From
    then on the entry is treated as uncompressed: [getStats] does not count
    it among the compressed entries, and a later [get] returns the same
    contents without decompressing. *)
Theorem get_stores_decompressed_entry
    (c : EnhancedContextCache) (key : string) (e : EnhancedContextCacheEntry)
    (o : Z) (parsedData : jsval) (t0 t1 t2 t3 : Z) :
  Map_get key (cache c) = Some e ->
  (inject_Z t1 <= expiresAt e)%Q ->
  unpacks P e o parsedData ->
  exists e',
    Map_get key (cache (snd (get P c key t0 t1 t2 t3))) = Some e' /\
    compressed e' = Some false /\
    size e' = o /\
    contextFiles e' = Plain (get_prop parsedData "contextFiles") /\
    fst (get P c key t0 t1 t2 t3) = Some (contextFiles e', summary e') /\
    counted_as_compressed e' = false /\
    Stats.compressedEntries (getStats (snd (get P c key t0 t1 t2 t3))) =
      Stats.compressedEntries (getStats c) - (if counted_as_compressed e then 1 else 0) /\
    (forall t0' t1' t2' t3',
       (inject_Z t1' <= expiresAt e')%Q ->
       fst (get P (snd (get P c key t0 t1 t2 t3)) key t0' t1' t2' t3')
         = Some (contextFiles e', summary e')).
Proof.
  intros Hget Hlive Hun. apply expired_false in Hlive.
  destruct (get_live_parts P c key e t0 t1 t2 t3 Hget Hlive) as (Hfst & Hcache & _ & _).
  set (e' := served_by_get P c e t0 t2 t3) in *.
  assert (He' : compressed e' = Some false /\ size e' = o /\
                contextFiles e' = Plain (get_prop parsedData "contextFiles")).
  { unfold e', served_by_get.
    rewrite (unpacks_compressed _ _ _ _ Hun), (decompressEntry_unpacks e o parsedData Hun).
    destruct (adaptiveExpiryEnabled c); repeat split. }
  destruct He' as (Hcomp & Hsize & Hfiles).
  assert (Hnot : is_compressed e' = false) by (unfold is_compressed; rewrite Hcomp; reflexivity).
  assert (Hcount : counted_as_compressed e' = false)
    by (unfold counted_as_compressed; rewrite Hnot; reflexivity).
  assert (Hget' : Map_get key (cache (snd (get P c key t0 t1 t2 t3))) = Some e')
    by (rewrite Hcache; apply Map_get_set_same).
  exists e'. repeat split; try assumption.
  - unfold getStats. simpl Stats.compressedEntries.
    rewrite Hcache, sum_over_Map_set, Hget, Hcount. lia.
  - intros t0' t1' t2' t3' Hlive'. apply expired_false in Hlive'.
    destruct (get_live_parts P _ key e' t0' t1' t2' t3' Hget' Hlive') as (-> & _).
    unfold served_by_get. rewrite Hnot.
    destruct (adaptiveExpiryEnabled _); reflexivity.
Qed.

End Decompression.

Lemma get_stores_decompressed_entry_witness :
  exists e',
    Map_get "k" (cache (snd (get tiny_platform
                                 (set tiny_platform low_threshold_cache "k" repetitive_files
                                      None None 1000 1000)
                                 "k" 1001 1001 1001 1001))) = Some e' /\
    compressed e' = Some false /\
    contextFiles e' = Plain (files_val repetitive_files).
Proof.
  destruct (get_stores_decompressed_entry tiny_platform
              (set tiny_platform low_threshold_cache "k" repetitive_files None None 1000 1000)
              "k"
              (stored_by_set tiny_platform low_threshold_cache repetitive_files None None
                             1000 1000)
              (calculateSize repetitive_files None)
              (payload_val repetitive_files None)
              1001 1001 1001 1001) as (e' & H1 & H2 & _ & H3 & _).
  - apply set_lookup.
  - vm_compute. discriminate.
  - constructor.
    + vm_compute. reflexivity.
    + eexists. eexists. eexists.
      split; [vm_compute; reflexivity |].
      split; [reflexivity |]. split; [vm_compute; reflexivity |].
      split; [vm_compute; reflexivity |].
      split; vm_compute; reflexivity.
    + vm_compute. discriminate.
    + reflexivity.
  - exists e'. split; [exact H1 |]. split; [exact H2 | exact H3].
Defined.

(** * Further properties of the cache *)

(** ** Keys: padding and history *)

Lemma all_ws_trimStart s : all_ws s = true -> trimStart s = EmptyString.
Proof.
  induction s as [| a r IH]; simpl; [reflexivity |].
  intros H. apply andb_true_iff in H as [-> Hr]. auto.
Qed.

Lemma all_ws_trimEnd s : all_ws s = true -> trimEnd s = EmptyString.
Proof.
  induction s as [| a r IH]; simpl; [reflexivity |].
  intros H. apply andb_true_iff in H as [-> Hr]. rewrite (IH Hr). reflexivity.
Qed.

Lemma trimStart_pad pre s : all_ws pre = true -> trimStart (pre ++ s) = trimStart s.
Proof.
  induction pre as [| a r IH]; simpl; [reflexivity |].
  intros H. apply andb_true_iff in H as [-> Hr]. auto.
Qed.

Lemma trimEnd_pad s post : all_ws post = true -> trimEnd (s ++ post) = trimEnd s.
Proof.
  intros H. induction s as [| a r IH]; simpl.
  - apply all_ws_trimEnd, H.
  - rewrite IH. reflexivity.
Qed.

Lemma trim_pad_end s post : all_ws post = true -> trim (s ++ post) = trim s.
Proof.
  intros H. unfold trim. induction s as [| a r IH]; simpl.
  - rewrite (all_ws_trimStart _ H). reflexivity.
  - destruct (is_ws a); [exact IH |].
    change (String a (r ++ post)) with (String a r ++ post)%string.
    apply trimEnd_pad, H.
Qed.

Lemma trim_padded s s' : padded s s' -> trim s' = trim s.
Proof.
  intros (pre & post & Hpre & Hpost & ->).
  unfold trim at 1. rewrite (trimStart_pad _ _ Hpre).
  apply (trim_pad_end s post Hpost).
Qed.

Lemma nonblank_trim s : nonblank s = negb (trim s =? EmptyString)%string.
Proof.
  unfold nonblank, truthy_string. destruct s as [| a r]; [reflexivity |].
  change ((String a r =? EmptyString)%string) with false. simpl negb. rewrite andb_true_l.
  destruct (trim (String a r)); reflexivity.
Qed.

Lemma padded_nonblank s s' : padded s s' -> nonblank s' = nonblank s.
Proof. intros H. rewrite !nonblank_trim, (trim_padded _ _ H). reflexivity. Qed.

Lemma padded_normalise (f : string -> string) l l' :
  Forall2 padded l l' ->
  map (fun x => f (trim x)) (filter nonblank l') = map (fun x => f (trim x)) (filter nonblank l).
Proof.
  induction 1 as [| s s' l l' Hs Hl IH]; simpl; [reflexivity |].
  rewrite (padded_nonblank _ _ Hs).
  destruct (nonblank s); simpl; [| exact IH].
  rewrite IH, (trim_padded _ _ Hs). reflexivity.
Qed.

Lemma slice_last_app {A : Type} (n : nat) (older recent : list A) :
  (n <= List.length recent)%nat -> slice_last n (older ++ recent) = slice_last n recent.
Proof.
  intros Hn. unfold slice_last. rewrite length_app, skipn_app.
  rewrite skipn_all2 by lia. simpl.
  f_equal. lia.
Qed.

Section KeyDetails.

Variable P : Platform.

(** X1.  White space around the prompt id, the message ids and the file
    paths does not reach the key. *)
Theorem generateCacheKey_ignores_padding
    (promptId promptId' : option string) (messageIds messageIds' : list string)
    (filePaths filePaths' : list string) :
  padded_prompt promptId promptId' ->
  Forall2 padded messageIds messageIds' ->
  Forall2 padded filePaths filePaths' ->
  generateCacheKey P promptId' messageIds' filePaths' =
  generateCacheKey P promptId messageIds filePaths.
Proof.
  intros Hp Hm Hf. unfold generateCacheKey.
  pose proof (padded_normalise (fun x => x) _ _ Hm) as Hm'.
  change (map trim (filter nonblank messageIds') = map trim (filter nonblank messageIds)) in Hm'.
  rewrite Hm', (padded_normalise toLowerCase _ _ Hf).
  destruct promptId as [p |], promptId' as [p' |]; simpl in Hp; try contradiction;
    [| reflexivity].
  rewrite (trim_padded _ _ Hp). reflexivity.
Qed.

(** X2.  Only the last three non-blank message ids reach the key: older
    history in front of them changes nothing. *)
Theorem generateCacheKey_recent_messages
    (promptId : option string) (older recent filePaths : list string) :
  (3 <= List.length (filter nonblank recent))%nat ->
  generateCacheKey P promptId (older ++ recent) filePaths =
  generateCacheKey P promptId recent filePaths.
Proof.
  intros H. unfold generateCacheKey.
  rewrite filter_app, map_app, slice_last_app; [reflexivity |].
  rewrite length_map. exact H.
Qed.

End KeyDetails.

Lemma generateCacheKey_ignores_padding_witness :
  generateCacheKey tiny_platform (Some " default"%string) ["m1 "]%string [" src/a.ts  "]%string =
  generateCacheKey tiny_platform (Some "default"%string) ["m1"]%string ["src/a.ts"]%string.
Proof.
  apply (generateCacheKey_ignores_padding tiny_platform).
  - exists " "%string, EmptyString. repeat split.
  - constructor; [| constructor]. exists EmptyString, " "%string. repeat split.
  - constructor; [| constructor]. exists " "%string, "  "%string. repeat split.
Defined.

Lemma generateCacheKey_recent_messages_witness :
  generateCacheKey tiny_platform None
                   (List.app ["m0"; "m1"]%string ["m2"; " "; "m3"; "m4"]%string)
                   ["src/a.ts"]%string =
  generateCacheKey tiny_platform None ["m2"; " "; "m3"; "m4"]%string ["src/a.ts"]%string.
Proof.
  apply (generateCacheKey_recent_messages tiny_platform None ["m0"; "m1"]%string
           ["m2"; " "; "m3"; "m4"]%string ["src/a.ts"]%string).
  simpl. lia.
Defined.

(** ** The computed size *)

Lemma size_fold_from (files : FileMap) (a : Z) :
  fold_left (fun size pc =>
               size + Z.of_nat (String.length (fst pc))
                    + Z.of_nat (List.length (TextEncoder_encode (snd pc)))) files a
  = a + calculateSize files None.
Proof.
  unfold calculateSize. revert a.
  induction files as [| x files IH]; intros a; simpl; [lia |].
  rewrite IH, (IH (_ + _)). lia.
Qed.

Lemma calculateSize_cons path content files summary :
  calculateSize ((path, content) :: files) summary =
  Z.of_nat (String.length path) + Z.of_nat (List.length (TextEncoder_encode content))
  + calculateSize files summary.
Proof.
  unfold calculateSize. simpl fold_left. rewrite size_fold_from.
  rewrite (size_fold_from files 0). unfold calculateSize.
  destruct summary as [s |]; [destruct (truthy_string s) |]; simpl; lia.
Qed.

Lemma utf8_length_bound s :
  (String.length s <= List.length (TextEncoder_encode s))%nat /\
  (is_ascii_string s = true -> List.length (TextEncoder_encode s) = String.length s).
Proof.
  induction s as [| a r [IH1 IH2]]; simpl; [split; [lia | reflexivity] |].
  rewrite length_app. unfold utf8_char.
  destruct (N_of_ascii a <? 128)%N; simpl; split; try lia; try discriminate.
  intros H. rewrite (IH2 H). reflexivity.
Qed.


(** X4.  The computed size is at least the number of code units of paths,
    contents and summary, and it is exactly that number when every content
    is ASCII: a path counts by its length, a content by its UTF-8 bytes. *)
Theorem calculateSize_code_units (files : FileMap) (summary : option string) :
  code_units files summary <= calculateSize files summary /\
  (forallb (fun pc => is_ascii_string (snd pc)) files = true ->
   calculateSize files summary = code_units files summary).
Proof.
  unfold code_units.
  induction files as [| [p c] l [IH1 IH2]].
  - unfold calculateSize. simpl.
    destruct summary as [[| a r] |]; simpl; split; intros; lia.
  - rewrite calculateSize_cons. simpl fold_right. simpl forallb. simpl fst. simpl snd.
    destruct (utf8_length_bound c) as [Hle Heq]. split.
    + lia.
    + intros H. apply andb_true_iff in H as [Hc Hl].
      rewrite (Heq Hc), (IH2 Hl). lia.
Qed.


Lemma calculateSize_code_units_witness :
  calculateSize small_files (Some "recap"%string) = code_units small_files (Some "recap"%string).
Proof.
  apply (calculateSize_code_units small_files (Some "recap"%string)).
  reflexivity.
Defined.

(** ** Sweeping and deleting *)

Section MapFilter.

Context {V : Type}.

Lemma Map_get_filter_kept k (v : V) (f : string * V -> bool) (m : JsMap V) :
  Map_get k m = Some v -> f (k, v) = true -> Map_get k (filter f m) = Some v.
Proof.
  unfold Map_get. induction m as [| [k0 v0] m IH]; simpl; [discriminate |].
  destruct (k0 =? k)%string eqn:E.
  - apply String.eqb_eq in E. subst k0. intros [= ->] Hf. rewrite Hf. simpl.
    rewrite String.eqb_refl. reflexivity.
  - intros H Hf. destruct (f (k0, v0)); simpl; [rewrite E |]; exact (IH H Hf).
Qed.

Lemma Map_get_filter_found k (v : V) (f : string * V -> bool) (m : JsMap V) :
  well_formed m -> Map_get k (filter f m) = Some v ->
  Map_get k m = Some v /\ f (k, v) = true.
Proof.
  intros Hnd H. apply Map_get_In, filter_In in H as [Hin Hf].
  split; [apply In_Map_get |]; assumption.
Qed.

Lemma Map_get_filter_absent k (f : string * V -> bool) (m : JsMap V) :
  Map_get k m = None -> Map_get k (filter f m) = None.
Proof.
  rewrite !Map_get_None. intros H Hin. apply H. eapply filter_keys, Hin.
Qed.

Lemma Map_get_filter_dropped k (v : V) (f : string * V -> bool) (m : JsMap V) :
  well_formed m -> Map_get k m = Some v -> f (k, v) = false -> Map_get k (filter f m) = None.
Proof.
  intros Hwf Hget Hf.
  destruct (Map_get k (filter f m)) as [v' |] eqn:E; [| reflexivity].
  destruct (Map_get_filter_found k v' f m Hwf E) as [Hget' Hf'].
  rewrite Hget in Hget'. injection Hget' as <-. congruence.
Qed.

Lemma filter_filter_implied (f g : string * V -> bool) (m : JsMap V) :
  (forall x, g x = true -> f x = true) -> filter g (filter f m) = filter g m.
Proof.
  intros H. induction m as [| x m IH]; simpl; [reflexivity |].
  destruct (f x) eqn:Ef; simpl.
  - rewrite IH. reflexivity.
  - destruct (g x) eqn:Eg; [rewrite (H x Eg) in Ef; discriminate | exact IH].
Qed.

Lemma Map_delete_absent k (m : JsMap V) : Map_get k m = None -> Map_delete k m = m.
Proof.
  unfold Map_get. induction m as [| [k0 v0] m IH]; simpl; [reflexivity |].
  destruct (k0 =? k)%string; [discriminate |]. intros H. rewrite (IH H). reflexivity.
Qed.

Lemma Map_set_present_keys k (v old : V) (m : JsMap V) :
  Map_get k m = Some old -> map fst (Map_set k v m) = map fst m.
Proof.
  unfold Map_get. induction m as [| [k0 v0] m IH]; simpl; [discriminate |].
  destruct (k0 =? k)%string eqn:E; simpl.
  - apply String.eqb_eq in E. subst k0. reflexivity.
  - intros H. rewrite (IH H). reflexivity.
Qed.

Lemma Map_set_absent_keys k (v : V) (m : JsMap V) :
  Map_get k m = None -> map fst (Map_set k v m) = map fst m ++ [k].
Proof.
  unfold Map_get. induction m as [| [k0 v0] m IH]; simpl; [reflexivity |].
  destruct (k0 =? k)%string eqn:E; simpl; [discriminate |].
  intros H. rewrite (IH H). reflexivity.
Qed.

End MapFilter.

Lemma expired_later t t' e : t <= t' -> expired t e = true -> expired t' e = true.
Proof.
  rewrite !expired_true, Zle_Qle. intros Hle H. eapply Qlt_le_trans; eassumption.
Qed.

Lemma or_zero_id x : or_zero x = x.
Proof. unfold or_zero. destruct (Z.eqb_spec x 0); congruence. Qed.

(** X5.  A sweep removes exactly the entries whose [expiresAt] has passed:
    an entry is in the store afterwards if and only if it was there and is
    still live.  The sweep touches neither the counters nor the settings. *)
Theorem cleanup_removes_exactly_expired (c : EnhancedContextCache) (now : Z) :
  well_formed (cache c) ->
  (forall k e,
     Map_get k (cache (cleanup c now)) = Some e <->
     Map_get k (cache c) = Some e /\ (inject_Z now <= expiresAt e)%Q) /\
  hits (cleanup c now) = hits c /\
  misses (cleanup c now) = misses c /\
  maxSize (cleanup c now) = maxSize c /\
  autoCompressionThreshold (cleanup c now) = autoCompressionThreshold c.
Proof.
  intros Hwf. split; [| repeat split].
  intros k e. simpl. split.
  - intros H. apply Map_get_filter_found in H as [Hget Hlive]; [| exact Hwf].
    split; [exact Hget |]. apply expired_false. simpl in Hlive.
    apply negb_true_iff in Hlive. exact Hlive.
  - intros [Hget Hlive]. apply Map_get_filter_kept; [exact Hget |].
    simpl. apply negb_true_iff, expired_false, Hlive.
Qed.

(** X6.  A later sweep subsumes an earlier one; in particular sweeping
    twice at the same time is sweeping once. *)
Theorem cleanup_absorbs_earlier_sweep (c : EnhancedContextCache) (t t' : Z) :
  t <= t' -> cleanup (cleanup c t) t' = cleanup c t'.
Proof.
  intros Hle. unfold cleanup, with_cache. simpl. f_equal.
  apply filter_filter_implied. intros [k e] H. simpl in *.
  apply negb_true_iff in H. apply negb_true_iff.
  destruct (expired t e) eqn:E; [| reflexivity].
  rewrite (expired_later t t' e Hle E) in H. discriminate.
Qed.

Section CountersAndTouch.

Variable P : Platform.

(** X7.  [delete] answers [true] exactly when the key was present; after
    it the key is absent, a [get] on it is a miss, every other key keeps its
    entry, the size drops by one if the key was there, and the hit and miss
    counters are as before. *)
Theorem delete_removes_one_key (c : EnhancedContextCache) (key : string) (t0 t1 t2 t3 : Z) :
  well_formed (cache c) ->
  (fst (delete c key) = true <-> Map_get key (cache c) <> None) /\
  Map_get key (cache (snd (delete c key))) = None /\
  fst (get P (snd (delete c key)) key t0 t1 t2 t3) = None /\
  (forall k, k <> key -> Map_get k (cache (snd (delete c key))) = Map_get k (cache c)) /\
  Map_size (cache (snd (delete c key))) =
    Map_size (cache c) - (if fst (delete c key) then 1 else 0) /\
  hits (snd (delete c key)) = hits c /\
  misses (snd (delete c key)) = misses c.
Proof.
  intros Hwf. unfold delete. simpl.
  assert (Hnone : Map_get key (Map_delete key (cache c)) = None)
    by apply Map_get_delete_same, Hwf.
  repeat split.
  - destruct (Map_get key (cache c)); [discriminate | congruence].
  - destruct (Map_get key (cache c)); [reflexivity | congruence].
  - exact Hnone.
  - rewrite get_absent; [reflexivity | exact Hnone].
  - intros k Hk. apply Map_get_delete_other, Hk.
  - rewrite Map_delete_size. destruct (Map_get key (cache c)); lia.
Qed.

(** X8.  Every [get] counts exactly once: it returns absent and adds one to
    [misses], or it returns a value and adds one to [hits]. *)
Theorem get_counts_exactly_once (c : EnhancedContextCache) (key : string) (t0 t1 t2 t3 : Z) :
  (fst (get P c key t0 t1 t2 t3) = None /\
   misses (snd (get P c key t0 t1 t2 t3)) = misses c + 1 /\
   hits (snd (get P c key t0 t1 t2 t3)) = hits c) \/
  (fst (get P c key t0 t1 t2 t3) <> None /\
   hits (snd (get P c key t0 t1 t2 t3)) = hits c + 1 /\
   misses (snd (get P c key t0 t1 t2 t3)) = misses c).
Proof.
  destruct (Map_get key (cache c)) as [e |] eqn:Hget.
  - destruct (expired t1 e) eqn:Hexp.
    + left. rewrite (get_expired P c key e t0 t1 t2 t3 Hget Hexp). repeat split.
    + right. rewrite (get_live P c key e t0 t1 t2 t3 Hget Hexp). repeat split. discriminate.
  - left. rewrite (get_absent P c key t0 t1 t2 t3 Hget). repeat split.
Qed.

Lemma step_accesses c call :
  hits (step P c call) + misses (step P c call) =
  accesses_after (hits c + misses c) [call].
Proof.
  destruct call; simpl accesses_after; simpl step; try reflexivity.
  - destruct (set_config P c key contextFiles0 summary0 expiryMs sweepTime now)
      as (_ & _ & -> & -> & _). reflexivity.
  - unfold get. destruct (Map_get key (cache c)) as [e |]; [| simpl; lia].
    destruct (expired checkTime e); simpl; lia.
  - unfold timer_tick. destruct (compressionEnabled _); [| reflexivity].
    destruct (negb _); reflexivity.
Qed.

(** X9.  Along any sequence of calls, [hits + misses] is the number of
    [get] calls made since the last [clear]. *)
Theorem hits_plus_misses_counts_gets (calls : list Call) (c : EnhancedContextCache) :
  hits (run P c calls) + misses (run P c calls) = accesses_after (hits c + misses c) calls.
Proof.
  revert c. induction calls as [| call rest IH]; intros c; [reflexivity |].
  change (run P c (call :: rest)) with (run P (step P c call) rest).
  rewrite IH, step_accesses. destruct call; reflexivity.
Qed.

(** X10.  A [get] never touches the entry of another key, never adds an
    entry, and on a hit leaves the keys in their order of insertion. *)
Theorem get_leaves_other_keys (c : EnhancedContextCache) (key : string) (t0 t1 t2 t3 : Z) :
  (forall k, k <> key ->
     Map_get k (cache (snd (get P c key t0 t1 t2 t3))) = Map_get k (cache c)) /\
  Map_size (cache (snd (get P c key t0 t1 t2 t3))) <= Map_size (cache c) /\
  (fst (get P c key t0 t1 t2 t3) <> None ->
   map fst (cache (snd (get P c key t0 t1 t2 t3))) = map fst (cache c)).
Proof.
  destruct (Map_get key (cache c)) as [e |] eqn:Hget.
  - destruct (expired t1 e) eqn:Hexp.
    + rewrite (get_expired P c key e t0 t1 t2 t3 Hget Hexp). simpl. repeat split.
      * intros k Hk. apply Map_get_delete_other, Hk.
      * rewrite Map_delete_size, Hget. lia.
      * congruence.
    + rewrite (get_live P c key e t0 t1 t2 t3 Hget Hexp). simpl. repeat split.
      * intros k Hk. apply Map_get_set_other, Hk.
      * rewrite Map_set_size, Hget. lia.
      * intros _. eapply Map_set_present_keys, Hget.
  - rewrite (get_absent P c key t0 t1 t2 t3 Hget). simpl.
    split; [intros; reflexivity |]. split; [lia | congruence].
Qed.

(** X11.  A [get] that hits stamps the stored entry: [timestamp] and
    [lastAccessTime] are the time of the access, [accessCount] is one more,
    [totalAccessTime] grows by the time the call took, and with adaptive
    expiry disabled [expiresAt] stays as it was. *)
Theorem get_stamps_entry
    (c : EnhancedContextCache) (key : string) (e : EnhancedContextCacheEntry)
    (startTime checkTime now adjustTime : Z) :
  Map_get key (cache c) = Some e ->
  (inject_Z checkTime <= expiresAt e)%Q ->
  exists e',
    Map_get key (cache (snd (get P c key startTime checkTime now adjustTime))) = Some e' /\
    timestamp e' = now /\
    lastAccessTime e' = now /\
    accessCount e' = accessCount e + 1 /\
    totalAccessTime e' = totalAccessTime e + (now - startTime) /\
    originalSize e' = originalSize e /\
    (adaptiveExpiryEnabled c = false -> expiresAt e' = expiresAt e).
Proof.
  intros Hget Hlive. apply expired_false in Hlive.
  destruct (get_live_parts P c key e startTime checkTime now adjustTime Hget Hlive)
    as (_ & Hcache & _).
  exists (served_by_get P c e startTime now adjustTime).
  split; [rewrite Hcache; apply Map_get_set_same |].
  unfold served_by_get.
  set (d := if is_compressed e then decompressEntry P e else e).
  assert (Hd : accessCount d = accessCount e /\ totalAccessTime d = totalAccessTime e /\
               originalSize d = originalSize e /\ expiresAt d = expiresAt e).
  { unfold d. destruct (is_compressed e); [| repeat split].
    destruct (decompressEntry_cases P e)
      as [-> | (b & s & o & bytes & parsed & _ & _ & _ & _ & _ & _ & _ & _ & _ & ->)];
      repeat split. }
  destruct Hd as (Hac & Htt & Hos & Hex).
  destruct (adaptiveExpiryEnabled c); simpl; rewrite ?or_zero_id, ?Hac, ?Htt, ?Hos;
    repeat split; try reflexivity; try discriminate.
  intros _. exact Hex.
Qed.

(** X12.  An expired entry is absent for [get] whether or not a sweep has
    removed it: a sweep that is not later than the [get] does not change
    what the [get] returns. *)
Theorem cleanup_unobservable_by_get
    (c : EnhancedContextCache) (key : string) (sweepTime t0 t1 t2 t3 : Z) :
  well_formed (cache c) ->
  sweepTime <= t1 ->
  fst (get P (cleanup c sweepTime) key t0 t1 t2 t3) = fst (get P c key t0 t1 t2 t3).
Proof.
  intros Hwf Hle.
  destruct (Map_get key (cache c)) as [e |] eqn:Hget.
  - destruct (expired sweepTime e) eqn:Hsw.
    + rewrite (get_expired P c key e t0 t1 t2 t3 Hget (expired_later _ _ _ Hle Hsw)).
      rewrite get_absent; [reflexivity |].
      simpl. apply (Map_get_filter_dropped key e); [exact Hwf | exact Hget |].
      simpl. rewrite Hsw. reflexivity.
    + assert (Hget' : Map_get key (cache (cleanup c sweepTime)) = Some e).
      { simpl. apply Map_get_filter_kept; [exact Hget |]. simpl. rewrite Hsw. reflexivity. }
      destruct (expired t1 e) eqn:Hexp.
      * rewrite (get_expired P c key e t0 t1 t2 t3 Hget Hexp),
                (get_expired P _ key e t0 t1 t2 t3 Hget' Hexp). reflexivity.
      * rewrite (get_live P c key e t0 t1 t2 t3 Hget Hexp),
                (get_live P _ key e t0 t1 t2 t3 Hget' Hexp). reflexivity.
  - rewrite (get_absent P c key t0 t1 t2 t3 Hget).
    rewrite get_absent; [reflexivity |]. simpl. apply Map_get_filter_absent, Hget.
Qed.

End CountersAndTouch.

Lemma cleanup_removes_exactly_expired_witness :
  Map_get "k" (cache (cleanup short_lived 1015)) = None.
Proof.
  destruct (Map_get "k" (cache (cleanup short_lived 1015))) as [e |] eqn:E; [| reflexivity].
  assert (Hwf : well_formed (cache short_lived)).
  { unfold well_formed. vm_compute. repeat constructor. simpl. tauto. }
  apply (proj1 (cleanup_removes_exactly_expired short_lived 1015 Hwf)) in E.
  destruct E as [E1 E2]. vm_compute in E1. injection E1 as <-.
  vm_compute in E2. exfalso. apply E2. reflexivity.
Defined.

Lemma cleanup_absorbs_earlier_sweep_witness :
  cleanup (cleanup short_lived 1005) 1015 = cleanup short_lived 1015.
Proof.
  apply (cleanup_absorbs_earlier_sweep short_lived 1005 1015). lia.
Defined.

Lemma delete_removes_one_key_witness :
  fst (get tiny_platform (snd (delete full_cache "a")) "a" 1002 1002 1002 1002) = None /\
  Map_get "b" (cache (snd (delete full_cache "a"))) = Map_get "b" (cache full_cache).
Proof.
  assert (Hwf : well_formed (cache full_cache)).
  { unfold well_formed. vm_compute. repeat constructor; simpl; intuition discriminate. }
  destruct (delete_removes_one_key tiny_platform full_cache "a" 1002 1002 1002 1002 Hwf)
    as (_ & _ & H1 & H2 & _).
  split; [exact H1 | apply H2; discriminate].
Defined.

Lemma get_stamps_entry_witness :
  exists e',
    Map_get "k" (cache (snd (get tiny_platform short_lived "k" 1003 1004 1005 1006))) = Some e' /\
    timestamp e' = 1005 /\ totalAccessTime e' = 2.
Proof.
  destruct (get_stamps_entry tiny_platform short_lived "k"
              (stored_by_set tiny_platform new_cache small_files None (Some 10) 1000 1000)
              1003 1004 1005 1006) as (e' & H1 & H2 & _ & _ & H3 & _).
  - reflexivity.
  - vm_compute. discriminate.
  - exists e'. split; [exact H1 |]. split; [exact H2 | exact H3].
Defined.

Lemma cleanup_unobservable_by_get_witness :
  fst (get tiny_platform (cleanup short_lived 1005) "k" 1006 1006 1006 1006) =
  fst (get tiny_platform short_lived "k" 1006 1006 1006 1006).
Proof.
  apply (cleanup_unobservable_by_get tiny_platform short_lived "k" 1005 1006 1006 1006 1006).
  - unfold well_formed. vm_compute. repeat constructor. simpl. tauto.
  - lia.
Defined.

(** ** Which entry is evicted *)

Lemma oldest_scan_first m k0 t0 :
  exists k,
    oldest_scan m (Some k0) (Some t0) = Some k /\
    ((k = k0 /\ forall k' e', In (k', e') m -> t0 <= timestamp e') \/
     (exists pre e post,
        m = pre ++ (k, e) :: post /\ timestamp e < t0 /\
        (forall k' e', In (k', e') pre -> timestamp e < timestamp e') /\
        (forall k' e', In (k', e') post -> timestamp e <= timestamp e'))).
Proof.
  revert k0 t0. induction m as [| [k1 e1] m IH]; intros k0 t0; simpl.
  - exists k0. split; [reflexivity |]. left. split; [reflexivity | tauto].
  - destruct (timestamp e1 <? t0) eqn:E.
    + apply Z.ltb_lt in E.
      destruct (IH k1 (timestamp e1))
        as (k & Hk & [[Heq Hall] | (pre & e & post & Hm & Hlt & Hpre & Hpost)]);
        exists k; (split; [exact Hk |]); right.
      * subst k. exists [], e1, m. repeat split; [exact E | intros ? ? [] | exact Hall].
      * exists ((k1, e1) :: pre), e, post. rewrite Hm. repeat split; [lia | | exact Hpost].
        intros k' e' [[= <- <-] | H]; [lia | eauto].
    + apply Z.ltb_ge in E.
      destruct (IH k0 t0)
        as (k & Hk & [[Heq Hall] | (pre & e & post & Hm & Hlt & Hpre & Hpost)]);
        exists k; (split; [exact Hk |]).
      * left. split; [exact Heq |].
        intros k' e' [[= <- <-] | H]; [lia | eauto].
      * right. exists ((k1, e1) :: pre), e, post. rewrite Hm.
        repeat split; [exact Hlt | | exact Hpost].
        intros k' e' [[= <- <-] | H]; [lia | eauto].
Qed.

(** X13.  [getOldestEntry] answers nothing on an empty store; otherwise it
    names the first entry, in insertion order, among those with the least
    [timestamp]: every entry before it is strictly younger. *)
Theorem getOldestEntry_first_of_least (c : EnhancedContextCache) :
  (cache c = [] -> getOldestEntry c = None) /\
  (cache c <> [] ->
   exists pre k e post,
     cache c = pre ++ (k, e) :: post /\
     getOldestEntry c = Some k /\
     (forall k' e', In (k', e') pre -> timestamp e < timestamp e') /\
     (forall k' e', In (k', e') post -> timestamp e <= timestamp e')).
Proof.
  unfold getOldestEntry. split.
  - intros ->. reflexivity.
  - destruct (cache c) as [| [k1 e1] m]; [congruence |]. intros _.
    replace (Map_size ((k1, e1) :: m) =? 0) with false
      by (symmetry; apply Z.eqb_neq; unfold Map_size; simpl List.length; lia).
    simpl.
    destruct (oldest_scan_first m k1 (timestamp e1))
      as (k & Hk & [[Heq Hall] | (pre & e & post & Hm & Hlt & Hpre & Hpost)]).
    + subst k. exists [], k1, e1, m. repeat split; [exact Hk | intros ? ? [] | exact Hall].
    + exists ((k1, e1) :: pre), k, e, post.
      split; [rewrite Hm; reflexivity |]. split; [exact Hk |]. split; [| exact Hpost].
      intros k' e' [[= <- <-] | H]; [lia | eauto].
Qed.

Lemma evict_if_full_keeps c key e :
  well_formed (cache c) ->
  Map_get key (cache c) = Some e ->
  (exists k2 e2, Map_get k2 (cache c) = Some e2 /\ timestamp e2 < timestamp e) ->
  Map_get key (cache (evict_if_full c)) = Some e.
Proof.
  intros Hwf Hget (k2 & e2 & Hget2 & Hlt). unfold evict_if_full.
  destruct (maxSize c <=? Map_size (cache c)); [| exact Hget].
  destruct (getOldestEntry c) as [ko |] eqn:Hold; [| exact Hget].
  destruct (truthy_string ko); [| exact Hget]. simpl.
  rewrite Map_get_delete_other; [exact Hget |].
  intros ->.
  assert (Hne : cache c <> []) by (intros E; rewrite E in Hget; discriminate).
  destruct (getOldestEntry_minimal c Hne) as (k & eo & Hold' & Hin & Hmin).
  rewrite Hold in Hold'. injection Hold' as <-.
  rewrite (In_Map_get _ _ _ Hwf Hin) in Hget. injection Hget as ->.
  specialize (Hmin k2 e2 (Map_get_In _ _ _ Hget2)). lia.
Qed.

Section Eviction.

Variable P : Platform.

(** X14.  The entry a [get] has just returned survives the next [set] of
    another key: if the other entries were touched before this access and
    one of them is still live, the eviction takes one of those. *)
Theorem read_entry_survives_next_set
    (c : EnhancedContextCache) (key other newKey : string)
    (e e2 e' : EnhancedContextCacheEntry)
    (t0 t1 now t3 sweepTime now' : Z)
    (files : FileMap) (summary : option string) (expiryMs : option Z) :
  well_formed (cache c) ->
  Map_get key (cache c) = Some e ->
  (inject_Z t1 <= expiresAt e)%Q ->
  (forall k1 e1, k1 <> key -> Map_get k1 (cache c) = Some e1 -> timestamp e1 < now) ->
  other <> key ->
  Map_get other (cache c) = Some e2 ->
  (inject_Z sweepTime <= expiresAt e2)%Q ->
  Map_get key (cache (snd (get P c key t0 t1 now t3))) = Some e' ->
  (inject_Z sweepTime <= expiresAt e')%Q ->
  newKey <> key ->
  Map_get key (cache (set P (snd (get P c key t0 t1 now t3)) newKey files summary expiryMs
                          sweepTime now')) = Some e'.
Proof.
  intros Hwf Hget Hlive Holder Hother Hget2 Hlive2 Hget' Hlive' Hnew.
  apply expired_false in Hlive.
  destruct (get_live_parts P c key e t0 t1 now t3 Hget Hlive) as (_ & Hcache & _).
  set (c' := snd (get P c key t0 t1 now t3)) in *.
  assert (Hwf' : well_formed (cache c')) by (rewrite Hcache; apply Map_set_well_formed, Hwf).
  assert (Hstamp : timestamp e' = now).
  { rewrite Hcache, Map_get_set_same in Hget'. injection Hget' as <-.
    unfold served_by_get. destruct (adaptiveExpiryEnabled c); reflexivity. }
  assert (Hget2' : Map_get other (cache c') = Some e2).
  { rewrite Hcache, Map_get_set_other; assumption. }
  rewrite set_cache, Map_get_set_other by (intros E; apply Hnew; congruence).
  unfold swept. apply evict_if_full_keeps.
  - apply filter_well_formed, Hwf'.
  - simpl. apply Map_get_filter_kept; [exact Hget' |].
    simpl. apply negb_true_iff, expired_false, Hlive'.
  - exists other, e2. split.
    + simpl. apply Map_get_filter_kept; [exact Hget2' |].
      simpl. apply negb_true_iff, expired_false, Hlive2.
    + rewrite Hstamp. apply (Holder other e2 Hother Hget2).
Qed.

(** X15.  An entry stored under the empty key is not evicted while it is
    the oldest: [set] then evicts nothing, and writing a new key makes the
    store one entry larger whatever [maxSize] is. *)
Theorem empty_key_blocks_eviction
    (c : EnhancedContextCache) (key : string) (e0 : EnhancedContextCacheEntry)
    (files : FileMap) (summary : option string) (expiryMs : option Z) (sweepTime now : Z) :
  well_formed (cache c) ->
  Map_get EmptyString (cache (cleanup c sweepTime)) = Some e0 ->
  (forall k e, k <> EmptyString -> Map_get k (cache (cleanup c sweepTime)) = Some e ->
               timestamp e0 < timestamp e) ->
  Map_get key (cache (cleanup c sweepTime)) = None ->
  cache (swept c sweepTime) = cache (cleanup c sweepTime) /\
  Map_size (cache (set P c key files summary expiryMs sweepTime now)) =
    Map_size (cache (cleanup c sweepTime)) + 1.
Proof.
  intros Hwf Hget0 Hyoung Hnew.
  assert (Hwf' : well_formed (cache (cleanup c sweepTime))) by apply filter_well_formed, Hwf.
  assert (Hsw : cache (swept c sweepTime) = cache (cleanup c sweepTime)).
  { unfold swept, evict_if_full.
    destruct (maxSize _ <=? Map_size _); [| reflexivity].
    destruct (getOldestEntry (cleanup c sweepTime)) as [ko |] eqn:Hold; [| reflexivity].
    assert (ko = EmptyString) as ->; [| reflexivity].
    assert (Hne : cache (cleanup c sweepTime) <> [])
      by (intros E; rewrite E in Hget0; discriminate).
    destruct (getOldestEntry_minimal _ Hne) as (k & eo & Hold' & Hin & Hmin).
    rewrite Hold in Hold'. injection Hold' as <-.
    destruct (string_dec ko EmptyString) as [E | Hne0]; [exact E |].
    pose proof (Hyoung ko eo Hne0 (In_Map_get _ _ _ Hwf' Hin)).
    specialize (Hmin _ _ (Map_get_In _ _ _ Hget0)). lia. }
  split; [exact Hsw |].
  rewrite set_cache, Map_set_size, Hsw, Hnew. reflexivity.
Qed.

(** X16.  Writing a key that is already stored still goes through the
    eviction: at capacity, if an older entry exists, that one is evicted and
    the store ends one entry smaller. *)
Theorem overwrite_at_capacity_evicts_another
    (c : EnhancedContextCache) (key : string) (e : EnhancedContextCacheEntry)
    (files : FileMap) (summary : option string) (expiryMs : option Z) (sweepTime now : Z) :
  well_formed (cache c) ->
  (forall k, In k (map fst (cache c)) -> k <> EmptyString) ->
  1 <= maxSize c ->
  maxSize c <= Map_size (cache (cleanup c sweepTime)) ->
  Map_get key (cache (cleanup c sweepTime)) = Some e ->
  (exists k2 e2, Map_get k2 (cache (cleanup c sweepTime)) = Some e2 /\
                 timestamp e2 < timestamp e) ->
  Map_size (cache (set P c key files summary expiryMs sweepTime now)) =
    Map_size (cache (cleanup c sweepTime)) - 1.
Proof.
  intros Hwf Hkeys Hpos Hfull Hget Holder.
  assert (Hwf' : well_formed (cache (cleanup c sweepTime))) by apply filter_well_formed, Hwf.
  assert (Hkeys' : forall k, In k (map fst (cache (cleanup c sweepTime))) -> k <> EmptyString)
    by (intros k H; apply Hkeys; eapply filter_keys, H).
  destruct (evict_if_full_at_capacity (cleanup c sweepTime) Hwf' Hkeys' Hpos Hfull)
    as (k & eo & _ & _ & Hcache & Hdel).
  pose proof (evict_if_full_keeps _ key e Hwf' Hget Holder) as Hkept.
  rewrite set_cache, Map_set_size. unfold swept. rewrite Hkept, Hcache, Hdel. reflexivity.
Qed.

(** X17.  Below capacity [set] removes nothing but expired entries: every
    other key whose entry is live at the sweep keeps it. *)
Theorem set_below_capacity_keeps_live_entries
    (c : EnhancedContextCache) (key k : string) (e : EnhancedContextCacheEntry)
    (files : FileMap) (summary : option string) (expiryMs : option Z) (sweepTime now : Z) :
  Map_size (cache (cleanup c sweepTime)) < maxSize c ->
  k <> key ->
  Map_get k (cache c) = Some e ->
  (inject_Z sweepTime <= expiresAt e)%Q ->
  Map_get k (cache (set P c key files summary expiryMs sweepTime now)) = Some e.
Proof.
  intros Hroom Hk Hget Hlive.
  rewrite set_cache, Map_get_set_other by exact Hk.
  unfold swept, evict_if_full.
  replace (maxSize (cleanup c sweepTime) <=? Map_size (cache (cleanup c sweepTime)))
    with false by (symmetry; apply Z.leb_gt; exact Hroom).
  simpl. apply Map_get_filter_kept; [exact Hget |].
  simpl. apply negb_true_iff, expired_false, Hlive.
Qed.

Lemma stored_by_set_fields c files text expiryMs sweepTime now :
  let e := stored_by_set P c files text expiryMs sweepTime now in
  accessCount e = 0 /\ totalAccessTime e = 0 /\ timestamp e = now /\
  lastAccessTime e = now /\ summary e = summary_val text.
Proof.
  destruct (stored_by_set_cases P c files text expiryMs sweepTime now)
    as [Hst | (ser & packed & _ & _ & _ & _ & _ & _ & Hst)];
    cbv zeta in *; rewrite Hst; repeat split.
Qed.

(** X18.  [set] writes a fresh entry: zero access counters, stamped with
    the time of the call, and carrying the caller's summary whether or not
    the files were compressed.  An existing key is overwritten in place; a
    new key goes last in the order of insertion. *)
Theorem set_writes_fresh_entry
    (c : EnhancedContextCache) (key : string)
    (files : FileMap) (text : option string) (expiryMs : option Z) (sweepTime now : Z) :
  exists e,
    Map_get key (cache (set P c key files text expiryMs sweepTime now)) = Some e /\
    accessCount e = 0 /\ totalAccessTime e = 0 /\
    timestamp e = now /\ lastAccessTime e = now /\
    summary e = summary_val text /\
    map fst (cache (set P c key files text expiryMs sweepTime now)) =
      match Map_get key (cache (swept c sweepTime)) with
      | Some _ => map fst (cache (swept c sweepTime))
      | None => map fst (cache (swept c sweepTime)) ++ [key]
      end.
Proof.
  exists (stored_by_set P c files text expiryMs sweepTime now).
  split; [apply set_lookup |].
  destruct (stored_by_set_fields c files text expiryMs sweepTime now)
    as (H1 & H2 & H3 & H4 & H5).
  repeat split; try assumption.
  rewrite set_cache.
  destruct (Map_get key (cache (swept c sweepTime))) eqn:E.
  - eapply Map_set_present_keys, E.
  - apply Map_set_absent_keys, E.
Qed.

(** X19.  Only [set] adds a key: after any other call every key in the
    store was there before, and after [set] every key was there before or
    is the key just written. *)
Theorem only_set_adds_keys (c : EnhancedContextCache) (call : Call) (k : string) :
  In k (map fst (cache (step P c call))) ->
  In k (map fst (cache c)) \/
  exists files summary expiryMs sweepTime now,
    call = CallSet k files summary expiryMs sweepTime now.
Proof.
  destruct call; simpl step; intros Hin; try (left; exact Hin).
  - rewrite set_cache in Hin. apply Map_set_keys in Hin as [-> | Hin].
    + right. repeat eexists.
    + left. unfold swept, evict_if_full in Hin.
      destruct (maxSize _ <=? Map_size _);
        [| eapply filter_keys, Hin].
      destruct (getOldestEntry _) as [ko |]; [| eapply filter_keys, Hin].
      destruct (truthy_string ko); [| eapply filter_keys, Hin].
      eapply filter_keys, Map_delete_keys, Hin.
  - left. destruct (Map_get key (cache c)) as [e |] eqn:Hget.
    + destruct (expired checkTime e) eqn:Hexp.
      * rewrite (get_expired P c key e _ _ _ _ Hget Hexp) in Hin.
        eapply Map_delete_keys, Hin.
      * rewrite (get_live P c key e _ _ _ _ Hget Hexp) in Hin. simpl in Hin.
        apply Map_set_keys in Hin as [-> | Hin]; [| exact Hin].
        eapply In_keys, Map_get_In, Hget.
    + rewrite (get_absent P c key _ _ _ _ Hget) in Hin. exact Hin.
  - left. eapply Map_delete_keys, Hin.
  - destruct Hin.
  - left. eapply filter_keys, Hin.
  - left. unfold timer_tick in Hin.
    destruct (compressionEnabled _); [| eapply filter_keys, Hin].
    destruct (negb _); eapply filter_keys, Hin.
Qed.

End Eviction.

Ltac distinct_keys := unfold well_formed; vm_compute; repeat constructor; simpl; intuition discriminate.

Lemma getOldestEntry_first_of_least_witness :
  exists pre k e post,
    cache full_cache = pre ++ (k, e) :: post /\ getOldestEntry full_cache = Some k.
Proof.
  destruct (proj2 (getOldestEntry_first_of_least full_cache))
    as (pre & k & e & post & H1 & H2 & _).
  - vm_compute. discriminate.
  - exists pre, k, e, post. split; assumption.
Defined.

Lemma read_entry_survives_next_set_witness :
  exists e',
    Map_get "a" (cache (snd (get tiny_platform full_cache "a" 1002 1002 1002 1002))) = Some e' /\
    Map_get "a" (cache (set tiny_platform
                            (snd (get tiny_platform full_cache "a" 1002 1002 1002 1002))
                            "c" small_files None None 1003 1003)) = Some e'.
Proof.
  eexists. split; [vm_compute; reflexivity |].
  eapply (read_entry_survives_next_set tiny_platform full_cache "a" "b" "c").
  - distinct_keys.
  - vm_compute. reflexivity.
  - vm_compute. discriminate.
  - intros k1 e1 Hk H. apply Map_get_In in H. vm_compute in H.
    destruct H as [H | [H | []]]; injection H as <- <-; [congruence | vm_compute; reflexivity].
  - discriminate.
  - vm_compute. reflexivity.
  - vm_compute. discriminate.
  - vm_compute. reflexivity.
  - vm_compute. discriminate.
  - discriminate.
Defined.

Lemma empty_key_blocks_eviction_witness :
  Map_size (cache (set tiny_platform empty_key_cache "c" small_files None None 1002 1002)) =
  Map_size (cache (cleanup empty_key_cache 1002)) + 1.
Proof.
  eapply (empty_key_blocks_eviction tiny_platform empty_key_cache "c").
  - distinct_keys.
  - vm_compute. reflexivity.
  - intros k e Hk H. apply Map_get_In in H. vm_compute in H.
    destruct H as [H | [H | []]]; injection H as <- <-; [congruence | vm_compute; reflexivity].
  - vm_compute. reflexivity.
Defined.

Lemma overwrite_at_capacity_evicts_another_witness :
  Map_size (cache (set tiny_platform full_cache "b" small_files None None 1002 1002)) =
  Map_size (cache (cleanup full_cache 1002)) - 1.
Proof.
  eapply (overwrite_at_capacity_evicts_another tiny_platform full_cache "b").
  - distinct_keys.
  - vm_compute. intros k [<- | [<- | []]]; discriminate.
  - vm_compute. discriminate.
  - vm_compute. discriminate.
  - vm_compute. reflexivity.
  - exists "a"%string. eexists. split; vm_compute; reflexivity.
Defined.

Lemma set_below_capacity_keeps_live_entries_witness :
  Map_get "k" (cache (set tiny_platform long_lived "j" small_files None None 2000 2000)) =
  Some (stored_by_set tiny_platform new_cache small_files None (Some 10000000) 1000 1000).
Proof.
  apply (set_below_capacity_keeps_live_entries tiny_platform long_lived "j" "k").
  - vm_compute. reflexivity.
  - discriminate.
  - reflexivity.
  - vm_compute. discriminate.
Defined.

Lemma only_set_adds_keys_witness :
  In "c"%string (map fst (cache full_cache)) \/
  exists files summary expiryMs sweepTime now,
    CallSet "c" small_files None None 1002 1002 = CallSet "c" files summary expiryMs sweepTime now.
Proof.
  apply (only_set_adds_keys tiny_platform full_cache
           (CallSet "c" small_files None None 1002 1002) "c").
  vm_compute. tauto.
Defined.

(** ** Settings and the timer *)

Section Settings.

Variable P : Platform.

(** X20.  No settings call evicts or rewrites a live entry or touches the
    hit and miss counters; [setMaxSize] drops expired entries only, however
    small the new maximum. *)
Theorem settings_keep_live_entries
    (c : EnhancedContextCache) (call : Call) (k : string) (e : EnhancedContextCacheEntry) :
  is_setting_call call = true ->
  Map_get k (cache c) = Some e ->
  (forall newSize now, call = CallSetMaxSize newSize now -> (inject_Z now <= expiresAt e)%Q) ->
  Map_get k (cache (step P c call)) = Some e /\
  hits (step P c call) = hits c /\
  misses (step P c call) = misses c.
Proof.
  intros Hcall Hget Hlive.
  destruct call; try discriminate Hcall; simpl step; repeat split; try exact Hget.
  simpl. apply Map_get_filter_kept; [exact Hget |].
  simpl. apply negb_true_iff, expired_false. apply (Hlive newSize now). reflexivity.
Qed.

End Settings.

Lemma half_below_max (t : Q) : (t / 2 <= Qmax t 1024)%Q.
Proof.
  destruct (Qlt_le_dec t 0) as [Hneg | Hpos].
  - apply Qle_trans with 1024%Q; [| apply Q.le_max_r].
    apply Qle_shift_div_r; [reflexivity |]. lra.
  - apply Qle_trans with t; [| apply Q.le_max_l].
    apply Qle_shift_div_r; [reflexivity |]. lra.
Qed.

(** X21.  The timer callback sweeps the expired entries and leaves the
    counters alone.  It changes the compression threshold only when
    compression is enabled, and then keeps it between the old threshold and
    1024: a threshold of 1024 or more is never raised and never falls below
    1024. *)
Theorem timer_tick_bounds_threshold (c : EnhancedContextCache) (now : Z) :
  cache (timer_tick c now) = cache (cleanup c now) /\
  hits (timer_tick c now) = hits c /\
  misses (timer_tick c now) = misses c /\
  (compressionEnabled c = false ->
   autoCompressionThreshold (timer_tick c now) = autoCompressionThreshold c) /\
  (Qmin (autoCompressionThreshold c) 1024 <= autoCompressionThreshold (timer_tick c now))%Q /\
  (autoCompressionThreshold (timer_tick c now) <= Qmax (autoCompressionThreshold c) 1024)%Q /\
  ((1024 <= autoCompressionThreshold c)%Q ->
   (1024 <= autoCompressionThreshold (timer_tick c now) <= autoCompressionThreshold c)%Q).
Proof.
  assert (Hcases :
    cache (timer_tick c now) = cache (cleanup c now) /\
    hits (timer_tick c now) = hits c /\
    misses (timer_tick c now) = misses c /\
    (autoCompressionThreshold (timer_tick c now) = autoCompressionThreshold c \/
     (compressionEnabled c = true /\
      autoCompressionThreshold (timer_tick c now)
        = Qmax 1024 (autoCompressionThreshold c / 2)))).
  { unfold timer_tick.
    change (compressionEnabled (cleanup c now)) with (compressionEnabled c).
    destruct (compressionEnabled c); [destruct (negb _) |]; simpl; auto 10. }
  destruct Hcases as (Hcache & Hhits & Hmisses & Hth).
  split; [exact Hcache |]. split; [exact Hhits |]. split; [exact Hmisses |].
  split; [| split; [| split]].
  - intros Hoff. destruct Hth as [H | [Hon _]]; [exact H | congruence].
  - destruct Hth as [-> | [_ ->]]; [apply Q.le_min_l |].
    apply Qle_trans with 1024%Q; [apply Q.le_min_r | apply Q.le_max_l].
  - destruct Hth as [-> | [_ ->]]; [apply Q.le_max_l |].
    apply Q.max_lub; [apply Q.le_max_r | apply half_below_max].
  - intros Hbig. destruct Hth as [-> | [_ ->]].
    + split; [exact Hbig | apply Qle_refl].
    + split; [apply Q.le_max_l |].
      apply Q.max_lub; [exact Hbig |].
      pose proof (half_below_max (autoCompressionThreshold c)) as Hhalf.
      rewrite Q.max_l in Hhalf by exact Hbig. exact Hhalf.
Qed.

Lemma sum_over_zero f m : (forall k e, In (k, e) m -> f e = 0) -> sum_over f m = 0.
Proof.
  induction m as [| [k e] m IH]; intros H; [reflexivity |].
  rewrite sum_over_cons, (H k e (or_introl eq_refl)), IH; [reflexivity |].
  intros k' e' Hin. apply (H k'). right. exact Hin.
Qed.

(** X22.  With compression enabled and no compressed entry in the store,
    every run of the timer callback lowers the threshold to the larger of
    1024 and half of it; an empty or idle cache drifts to 1024. *)
Theorem timer_tick_halves_threshold (c : EnhancedContextCache) (now : Z) :
  compressionEnabled c = true ->
  (forall k e, In (k, e) (cache c) -> counted_as_compressed e = false) ->
  autoCompressionThreshold (timer_tick c now) = Qmax 1024 (autoCompressionThreshold c / 2).
Proof.
  intros Hen Hnone. unfold timer_tick.
  change (compressionEnabled (cleanup c now)) with (compressionEnabled c). rewrite Hen.
  assert (Hzero : Stats.compressionRatio (getStats (cleanup c now)) = 0%Q).
  { unfold getStats. simpl Stats.compressionRatio.
    rewrite sum_over_zero; [reflexivity |].
    intros k e Hin. simpl in Hin. apply filter_In in Hin as [Hin _].
    rewrite (Hnone k e Hin). reflexivity. }
  rewrite Hzero. reflexivity.
Qed.

Lemma settings_keep_live_entries_witness :
  Map_get "k" (cache (setMaxSize long_lived 0 2000)) =
  Some (stored_by_set tiny_platform new_cache small_files None (Some 10000000) 1000 1000).
Proof.
  apply (settings_keep_live_entries tiny_platform long_lived (CallSetMaxSize 0 2000) "k").
  - reflexivity.
  - reflexivity.
  - intros newSize now H. injection H as _ <-. vm_compute. discriminate.
Defined.

Lemma timer_tick_bounds_threshold_witness :
  (1024 <= autoCompressionThreshold (timer_tick new_cache 1000)
   <= autoCompressionThreshold new_cache)%Q.
Proof.
  apply (timer_tick_bounds_threshold new_cache 1000).
  vm_compute. discriminate.
Defined.

Lemma timer_tick_halves_threshold_witness :
  autoCompressionThreshold (timer_tick short_lived 2000)
  = Qmax 1024 (autoCompressionThreshold short_lived / 2).
Proof.
  apply (timer_tick_halves_threshold short_lived 2000).
  - reflexivity.
  - intros k e Hin. vm_compute in Hin. destruct Hin as [H | []].
    injection H as _ <-. reflexivity.
Defined.

(** ** Invariants of every reachable state *)

Section Reachable.

Variable P : Platform.

(** Whatever [set] stores has [Q], and [get] keeps [Q] on what it
    rewrites: then [Q] holds for all entries along every sequence of calls. *)
Lemma run_all_entries (Q : EnhancedContextCacheEntry -> Prop) :
  (forall c files summary expiryMs sweepTime now,
     Q (stored_by_set P c files summary expiryMs sweepTime now)) ->
  (forall c e t0 t2 t3, Q e -> Q (served_by_get P c e t0 t2 t3)) ->
  forall calls c, all_entries Q c -> all_entries Q (run P c calls).
Proof.
  intros Hset Hget. induction calls as [| call rest IH]; intros c Hc; [exact Hc |].
  apply IH. clear IH rest.
  assert (Hsweep : forall now, all_entries Q (cleanup c now)).
  { intros now k e Hin. simpl in Hin. apply filter_In in Hin. apply (Hc k), Hin. }
  destruct call; simpl step; try exact Hc.
  - intros k e Hin. rewrite set_cache in Hin.
    apply Map_set_In in Hin as [[= -> ->] | Hin]; [apply Hset |].
    unfold swept, evict_if_full in Hin.
    destruct (maxSize _ <=? Map_size _); [| exact (Hsweep _ k e Hin)].
    destruct (getOldestEntry _) as [ko |]; [| exact (Hsweep _ k e Hin)].
    destruct (truthy_string ko); [| exact (Hsweep _ k e Hin)].
    apply (Hsweep sweepTime k). eapply Map_delete_In, Hin.
  - destruct (Map_get key (cache c)) as [e0 |] eqn:E.
    + destruct (expired checkTime e0) eqn:Hexp.
      * rewrite (get_expired P c key e0 _ _ _ _ E Hexp).
        intros k e Hin. apply (Hc k). eapply Map_delete_In, Hin.
      * rewrite (get_live P c key e0 _ _ _ _ E Hexp).
        intros k e Hin. simpl in Hin.
        apply Map_set_In in Hin as [[= -> ->] | Hin]; [| exact (Hc k e Hin)].
        apply Hget, (Hc key), Map_get_In, E.
    + rewrite (get_absent P c key _ _ _ _ E). exact Hc.
  - intros k e Hin. apply (Hc k). eapply Map_delete_In, Hin.
  - intros k e [].
  - apply Hsweep.
  - unfold timer_tick. destruct (compressionEnabled _); [| apply Hsweep].
    destruct (negb _); apply Hsweep.
Qed.

Lemma step_sound c call :
  well_formed (cache c) /\ 0 <= hits c /\ 0 <= misses c ->
  well_formed (cache (step P c call)) /\ 0 <= hits (step P c call) /\
  0 <= misses (step P c call).
Proof.
  intros (Hwf & Hh & Hm).
  destruct call; simpl step; try (split; [exact Hwf | split; assumption]).
  - destruct (set_config P c key contextFiles0 summary0 expiryMs sweepTime now)
      as (_ & _ & -> & -> & _).
    split; [| split; assumption]. rewrite set_cache. apply Map_set_well_formed.
    unfold swept, evict_if_full.
    destruct (maxSize _ <=? Map_size _); [| apply filter_well_formed, Hwf].
    destruct (getOldestEntry _) as [ko |]; [| apply filter_well_formed, Hwf].
    destruct (truthy_string ko); [| apply filter_well_formed, Hwf].
    apply Map_delete_well_formed, filter_well_formed, Hwf.
  - destruct (Map_get key (cache c)) as [e0 |] eqn:E.
    + destruct (expired checkTime e0) eqn:Hexp.
      * rewrite (get_expired P c key e0 _ _ _ _ E Hexp). simpl.
        split; [apply Map_delete_well_formed, Hwf | lia].
      * rewrite (get_live P c key e0 _ _ _ _ E Hexp). simpl.
        split; [apply Map_set_well_formed, Hwf | lia].
    + rewrite (get_absent P c key _ _ _ _ E). simpl. split; [exact Hwf | lia].
  - split; [apply Map_delete_well_formed, Hwf | split; assumption].
  - simpl. split; [constructor | split; lia].
  - split; [apply filter_well_formed, Hwf | split; assumption].
  - unfold timer_tick. destruct (compressionEnabled _);
      [destruct (negb _) |]; (split; [apply filter_well_formed, Hwf | split; assumption]).
Qed.

Lemma run_sound calls : forall c,
  well_formed (cache c) /\ 0 <= hits c /\ 0 <= misses c ->
  well_formed (cache (run P c calls)) /\ 0 <= hits (run P c calls) /\
  0 <= misses (run P c calls).
Proof.
  induction calls as [| call rest IH]; intros c Hc; [exact Hc |].
  apply IH, step_sound, Hc.
Qed.

(** X23.  In every state the constructor's cache reaches, the keys of the
    store are pairwise distinct and the hit and miss counters are not
    negative. *)
Theorem reachable_store_sound (calls : list Call) :
  well_formed (cache (run P new_cache calls)) /\
  0 <= hits (run P new_cache calls) /\
  0 <= misses (run P new_cache calls).
Proof.
  apply run_sound. split; [constructor |]. split; discriminate.
Qed.

Lemma stored_by_set_size_sound c files summary expiryMs sweepTime now :
  compressed_size_sound (stored_by_set P c files summary expiryMs sweepTime now).
Proof.
  unfold compressed_size_sound.
  destruct (stored_by_set_cases P c files summary expiryMs sweepTime now)
    as [Hst | (text & packed & _ & _ & Hr & _ & _ & _ & Hst)];
    cbv zeta in *; rewrite Hst.
  - discriminate.
  - intros _. exists (calculateSize files summary). split; [reflexivity |].
    simpl size.
    destruct (ratio_kept _ _ (Nat2Z.is_nonneg _) (calculateSize_nonneg files summary) Hr);
      lia.
Qed.

Lemma served_by_get_size_sound c e t0 t2 t3 :
  compressed_size_sound e -> compressed_size_sound (served_by_get P c e t0 t2 t3).
Proof.
  unfold compressed_size_sound. intros He. unfold served_by_get.
  set (d := if is_compressed e then decompressEntry P e else e).
  assert (Hd : is_compressed d = true -> exists o, originalSize d = Some o /\ 0 <= size d <= o).
  { unfold d. destruct (is_compressed e) eqn:Hc; [| rewrite Hc; discriminate].
    destruct (decompressEntry_cases P e)
      as [-> | (b & s & o & bytes & parsed & _ & _ & _ & _ & _ & _ & _ & _ & _ & ->)].
    - intros _. apply He. reflexivity.
    - discriminate. }
  destruct (adaptiveExpiryEnabled c); exact Hd.
Qed.

Lemma sum_over_le f g m :
  (forall k e, In (k, e) m -> f e <= g e) -> sum_over f m <= sum_over g m.
Proof.
  induction m as [| [k e] m IH]; intros H; [unfold sum_over; simpl; lia |].
  rewrite !sum_over_cons.
  pose proof (H k e (or_introl eq_refl)).
  assert (sum_over f m <= sum_over g m) by (apply IH; intros k' e' Hin; apply (H k'); right; exact Hin).
  lia.
Qed.

Lemma sum_over_nonneg f m : (forall k e, In (k, e) m -> 0 <= f e) -> 0 <= sum_over f m.
Proof.
  intros H. rewrite <- (sum_over_zero (fun _ => 0) m) by reflexivity.
  apply sum_over_le. exact H.
Qed.

Lemma sum_over_const_one m : sum_over (fun _ => 1) m = Map_size m.
Proof.
  unfold Map_size. induction m as [| [k e] m IH]; [reflexivity |].
  rewrite sum_over_cons, IH. simpl List.length. lia.
Qed.

Lemma unit_fraction (a b : Z) :
  0 <= a <= b -> 0 < b -> (0 <= inject_Z a / inject_Z b <= 1)%Q.
Proof.
  intros [Ha Hab] Hb.
  assert (Hb' : (0 < inject_Z b)%Q) by (change 0%Q with (inject_Z 0); rewrite <- Zlt_Qlt; exact Hb).
  split.
  - apply Qle_shift_div_l; [exact Hb' |]. rewrite Qmult_0_l.
    change 0%Q with (inject_Z 0). rewrite <- Zle_Qle. exact Ha.
  - apply Qle_shift_div_r; [exact Hb' |]. rewrite Qmult_1_l, <- Zle_Qle. exact Hab.
Qed.

(** X24.  In every state the constructor's cache reaches, the snapshot of
    [getStats] is consistent: the hit ratio and the compression ratio lie
    between 0 and 1, the compressed entries are no more than the entries,
    and the compressed bytes no more than the original bytes. *)
Theorem reachable_stats_consistent (calls : list Call) :
  let stats := getStats (run P new_cache calls) in
  (0 <= Stats.hitRatio stats <= 1)%Q /\
  (0 <= Stats.compressionRatio stats <= 1)%Q /\
  0 <= Stats.compressedEntries stats <= Stats.size stats /\
  0 <= Stats.totalCompressedSize stats <= Stats.totalOriginalSize stats.
Proof.
  destruct (run_sound calls new_cache) as (_ & Hh & Hm);
    [split; [constructor |]; split; discriminate |].
  assert (Hsound : all_entries compressed_size_sound (run P new_cache calls)).
  { apply run_all_entries.
    - apply stored_by_set_size_sound.
    - apply served_by_get_size_sound.
    - intros k e []. }
  set (c := run P new_cache calls) in *. cbv zeta.
  assert (Hsizes : 0 <= Stats.totalCompressedSize (getStats c)
                   <= Stats.totalOriginalSize (getStats c)).
  { unfold getStats. simpl. split.
    - apply sum_over_nonneg.
      intros k e Hin. unfold counted_as_compressed.
      destruct (is_compressed e) eqn:Hc; simpl; [| lia].
      destruct (Hsound k e Hin Hc) as (o & -> & Ho). destruct (negb (o =? 0)); lia.
    - apply sum_over_le. intros k e Hin. unfold counted_as_compressed.
      destruct (is_compressed e) eqn:Hc; simpl; [| lia].
      destruct (Hsound k e Hin Hc) as (o & -> & Ho). destruct (negb (o =? 0)); lia. }
  repeat split; try apply Hsizes.
  - unfold getStats. simpl Stats.hitRatio.
    destruct (Z.ltb_spec 0 (hits c + misses c)); [| apply Qle_refl].
    apply unit_fraction; lia.
  - unfold getStats. simpl Stats.hitRatio.
    destruct (Z.ltb_spec 0 (hits c + misses c)); [| discriminate].
    apply unit_fraction; lia.
  - revert Hsizes. unfold getStats. simpl. intros Hsizes.
    match goal with |- context [0 <? ?x] => destruct (Z.ltb_spec 0 x) as [Hpos | _] end;
      [| apply Qle_refl].
    pose proof (unit_fraction _ _ Hsizes Hpos). lra.
  - revert Hsizes. unfold getStats. simpl. intros Hsizes.
    match goal with |- context [0 <? ?x] => destruct (Z.ltb_spec 0 x) as [Hpos | _] end;
      [| discriminate].
    pose proof (unit_fraction _ _ Hsizes Hpos). lra.
  - unfold getStats. simpl. apply sum_over_nonneg.
    intros k e _. destruct (counted_as_compressed e); lia.
  - unfold getStats. simpl. rewrite <- (sum_over_const_one (cache c)). apply sum_over_le.
    intros k e _. destruct (counted_as_compressed e); lia.
Qed.

End Reachable.

(** ** Frequent access, plain entries, clearing *)

Section MoreRoundTrips.

Variable P : Platform.

(** X25.  From the tenth access on, a [get] under adaptive expiry leaves the
    entry at least one full base window from the time of the access. *)
Theorem adaptive_expiry_full_window
    (c : EnhancedContextCache) (key : string) (e : EnhancedContextCacheEntry)
    (t0 t1 t2 t3 : Z) :
  adaptiveExpiryEnabled c = true ->
  Map_get key (cache c) = Some e ->
  (inject_Z t1 <= expiresAt e)%Q ->
  9 <= accessCount e ->
  exists e',
    Map_get key (cache (snd (get P c key t0 t1 t2 t3))) = Some e' /\
    (inject_Z t3 + inject_Z (defaultExpiryMs c) <= expiresAt e')%Q.
Proof.
  intros Hon Hget Hlive Hcount. apply expired_false in Hlive.
  destruct (get_live_parts P c key e t0 t1 t2 t3 Hget Hlive) as (_ & Hcache & _).
  exists (served_by_get P c e t0 t2 t3).
  split; [rewrite Hcache; apply Map_get_set_same |].
  unfold served_by_get. rewrite Hon.
  set (d := if is_compressed e then decompressEntry P e else e).
  assert (Hacc : accessCount d = accessCount e).
  { unfold d. destruct (is_compressed e); [apply decompressEntry_accessCount | reflexivity]. }
  simpl. rewrite Hacc, or_zero_id, Z.min_r by lia.
  eapply Qle_trans; [| apply Q.le_max_r].
  setoid_replace (inject_Z 10 / 10)%Q with 1%Q by reflexivity.
  rewrite Qmult_1_r. apply Qle_refl.
Qed.

(** X26.  An entry that [set] does not compress comes back exactly: with
    compression disabled, or a computed size at or below the threshold, or an
    empty file map, a [get] before expiry returns the files and the summary
    as they were given, an omitted summary included, whatever the platform
    does. *)
Theorem uncompressed_round_trip_exact
    (c : EnhancedContextCache) (key : string) (files : FileMap) (text : option string)
    (expiryMs : option Z) (sweepTime now t0 t1 t2 t3 : Z) :
  compressionEnabled c = false \/
  (inject_Z (calculateSize files text) <= autoCompressionThreshold c)%Q \/
  files = [] ->
  (forall e, Map_get key (cache (set P c key files text expiryMs sweepTime now)) = Some e ->
             (inject_Z t1 <= expiresAt e)%Q) ->
  fst (get P (set P c key files text expiryMs sweepTime now) key t0 t1 t2 t3)
    = Some (Plain (files_val files), summary_val text).
Proof.
  intros Hplain Hlive.
  pose proof (set_lookup P c key files text expiryMs sweepTime now) as Hget.
  specialize (Hlive _ Hget). apply expired_false in Hlive.
  destruct (get_live_parts P _ key _ t0 t1 t2 t3 Hget Hlive) as (-> & _).
  destruct (stored_by_set_cases P c files text expiryMs sweepTime now)
    as [Hst | (ser & packed & _ & _ & _ & Hen & Hth & Hfiles & _)].
  - cbv zeta in Hst. rewrite Hst. unfold served_by_get. simpl is_compressed. cbv iota.
    destruct (adaptiveExpiryEnabled _); reflexivity.
  - exfalso. destruct Hplain as [Hoff | [Hsmall | Hempty]].
    + congruence.
    + apply Qle_bool_iff in Hsmall. congruence.
    + contradiction.
Qed.

(** X27.  After [clear] the store is empty and the hit and miss counters
    are zero, so the snapshot reports zero size, counts and ratios and the
    next [get] of any key is the first miss; the settings stay. *)
Theorem clear_resets_store (c : EnhancedContextCache) :
  (forall key t0 t1 t2 t3,
     fst (get P (clear c) key t0 t1 t2 t3) = None /\
     misses (snd (get P (clear c) key t0 t1 t2 t3)) = 1) /\
  Stats.size (getStats (clear c)) = 0 /\
  Stats.hits (getStats (clear c)) = 0 /\
  Stats.misses (getStats (clear c)) = 0 /\
  Stats.hitRatio (getStats (clear c)) = 0%Q /\
  Stats.compressionRatio (getStats (clear c)) = 0%Q /\
  Stats.averageAccessTime (getStats (clear c)) = 0%Q /\
  Stats.compressedEntries (getStats (clear c)) = 0 /\
  maxSize (clear c) = maxSize c /\
  defaultExpiryMs (clear c) = defaultExpiryMs c /\
  autoCompressionThreshold (clear c) = autoCompressionThreshold c /\
  compressionEnabled (clear c) = compressionEnabled c /\
  adaptiveExpiryEnabled (clear c) = adaptiveExpiryEnabled c.
Proof.
  split; [| repeat split].
  intros key t0 t1 t2 t3. rewrite get_absent by reflexivity. split; reflexivity.
Qed.

End MoreRoundTrips.

Lemma adaptive_expiry_full_window_witness :
  exists e',
    Map_get "k" (cache (snd (get tiny_platform often_read "k" 3000 3000 3000 3000))) = Some e' /\
    (inject_Z 3000 + inject_Z (defaultExpiryMs often_read) <= expiresAt e')%Q.
Proof.
  destruct (adaptive_expiry_full_window tiny_platform often_read "k"
              (match Map_get "k" (cache often_read) with
               | Some e => e
               | None => corrupt_entry
               end) 3000 3000 3000 3000)
    as (e' & H1 & H2).
  - vm_compute. reflexivity.
  - vm_compute. reflexivity.
  - vm_compute. discriminate.
  - vm_compute. discriminate.
  - exists e'. split; assumption.
Defined.

Lemma uncompressed_round_trip_exact_witness :
  fst (get tiny_platform
           (set tiny_platform (setCompressionEnabled low_threshold_cache false) "k"
                repetitive_files None None 1000 1000)
           "k" 1001 1001 1001 1001)
    = Some (Plain (files_val repetitive_files), summary_val None).
Proof.
  apply (uncompressed_round_trip_exact tiny_platform
           (setCompressionEnabled low_threshold_cache false) "k" repetitive_files None None
           1000 1000 1001 1001 1001 1001).
  - left. reflexivity.
  - intros e H. rewrite set_lookup in H. injection H as <-. vm_compute. discriminate.
Defined.

(** ** The list of paths in the snapshot *)

Lemma push_unique_spec acc path :
  NoDup acc ->
  NoDup (push_unique acc path) /\
  forall p, In p (push_unique acc path) <-> In p acc \/ p = path.
Proof.
  intros Hnd. unfold push_unique.
  destruct (existsb (String.eqb path) acc) eqn:E.
  - split; [exact Hnd |]. intros p. split; [tauto |].
    intros [H | ->]; [exact H |].
    apply existsb_exists in E as (x & Hx & Heq). apply String.eqb_eq in Heq. congruence.
  - split.
    + apply NoDup_app; [exact Hnd | constructor; [tauto | constructor] |].
      intros x Hx [<- | []].
      assert (existsb (String.eqb path) acc = true); [| congruence].
      apply existsb_exists. exists path. split; [exact Hx | apply String.eqb_refl].
    + intros p. rewrite in_app_iff. simpl. intuition congruence.
Qed.

Lemma fold_push_unique_spec keys : forall acc,
  NoDup acc ->
  NoDup (fold_left push_unique keys acc) /\
  forall p, In p (fold_left push_unique keys acc) <-> In p acc \/ In p keys.
Proof.
  induction keys as [| x keys IH]; intros acc Hnd; simpl.
  - split; [exact Hnd | tauto].
  - destruct (push_unique_spec acc x Hnd) as [Hnd1 Hin1].
    destruct (IH _ Hnd1) as [Hnd2 Hin2]. split; [exact Hnd2 |].
    intros p. rewrite Hin2, Hin1. intuition congruence.
Qed.

Lemma collect_paths_spec m : forall acc paths,
  NoDup acc ->
  collect_paths m acc = Return paths ->
  NoDup paths /\
  forall p, In p paths <->
            In p acc \/
            exists k e keys, In (k, e) m /\ object_keys (contextFiles e) = Return keys /\
                             In p keys.
Proof.
  induction m as [| [k e] m IH]; intros acc paths Hnd; simpl.
  - intros [= <-]. split; [exact Hnd |]. intros p. split; [tauto |].
    intros [H | (? & ? & ? & [] & _)]. exact H.
  - destruct (object_keys (contextFiles e)) as [keys | msg] eqn:Hk; simpl; [| discriminate].
    intros Hcollect.
    destruct (fold_push_unique_spec keys acc Hnd) as [Hnd1 Hin1].
    destruct (IH _ _ Hnd1 Hcollect) as [Hnd2 Hin2]. split; [exact Hnd2 |].
    intros p. rewrite Hin2, Hin1. split.
    + intros [[H | H] | (k1 & e1 & keys1 & Hin & Hkeys & Hp)].
      * left. exact H.
      * right. exists k, e, keys. repeat split; [left; reflexivity | exact Hk | exact H].
      * right. exists k1, e1, keys1. repeat split; [right; exact Hin | exact Hkeys | exact Hp].
    + intros [H | (k1 & e1 & keys1 & [[= -> ->] | Hin] & Hkeys & Hp)].
      * left. left. exact H.
      * left. right. congruence.
      * right. exists k1, e1, keys1. repeat split; assumption.
Qed.

Lemma collect_paths_defined m : forall acc,
  (forall k e, In (k, e) m -> files_enumerable e) ->
  exists paths, collect_paths m acc = Return paths.
Proof.
  induction m as [| [k e] m IH]; intros acc H; simpl; [eexists; reflexivity |].
  destruct (H k e (or_introl eq_refl)) as [keys ->]. simpl.
  apply IH. intros k1 e1 Hin. apply (H k1). right. exact Hin.
Qed.

(** X28.  When [getStats] can list the paths, the list has no duplicates
    and holds exactly the property names of the [contextFiles] objects of the
    stored entries. *)
Theorem stats_paths_distinct_and_complete (c : EnhancedContextCache) (paths : list string) :
  getStats_contextFiles c = Return paths ->
  NoDup paths /\
  forall p, In p paths <->
            exists k e keys, In (k, e) (cache c) /\
                             object_keys (contextFiles e) = Return keys /\ In p keys.
Proof.
  intros H. destruct (collect_paths_spec (cache c) [] paths (NoDup_nil _) H) as [Hnd Hin].
  split; [exact Hnd |]. intros p. rewrite Hin. simpl. tauto.
Qed.

Section ReachablePaths.

Variable P : Platform.

Lemma stored_by_set_enumerable c files summary expiryMs sweepTime now :
  let e := stored_by_set P c files summary expiryMs sweepTime now in
  files_enumerable e /\
  (is_compressed e = true -> exists b s, contextFiles e = Packed b /\ _compressed b = VStr s).
Proof.
  destruct (stored_by_set_cases P c files summary expiryMs sweepTime now)
    as [Hst | (text & packed & _ & _ & _ & _ & _ & _ & Hst)];
    cbv zeta in *; rewrite Hst; (split; [eexists; reflexivity |]).
  - discriminate.
  - intros _. eexists. eexists. split; reflexivity.
Qed.

Lemma served_by_get_enumerable c e t0 t2 t3 :
  files_enumerable e /\
  (is_compressed e = true -> exists b s, contextFiles e = Packed b /\ _compressed b = VStr s) ->
  let e1 := served_by_get P c e t0 t2 t3 in
  files_enumerable e1 /\
  (is_compressed e1 = true -> exists b s, contextFiles e1 = Packed b /\ _compressed b = VStr s).
Proof.
  intros He. unfold served_by_get.
  set (d := if is_compressed e then decompressEntry P e else e).
  assert (Hd : files_enumerable d /\
               (is_compressed d = true ->
                exists b s, contextFiles d = Packed b /\ _compressed b = VStr s)).
  { unfold d. destruct (is_compressed e) eqn:Hc;
      [| split; [apply He | rewrite Hc; discriminate]].
    destruct (decompressEntry_cases P e)
      as [-> | (b & s & o & bytes & parsed & _ & _ & _ & _ & _ & _ & _ & _ & Hok & ->)];
      [split; [apply He | intros _; apply He; reflexivity] |].
    split; [| discriminate]. unfold files_enumerable. simpl.
    destruct (get_prop parsed "contextFiles") as [| | | | | |]; simpl in Hok;
      try discriminate; eexists; reflexivity. }
  destruct (adaptiveExpiryEnabled c); exact Hd.
Qed.

(** X29.  In every state the constructor's cache reaches, [getStats] can
    list the paths: [Object.keys] never meets a [contextFiles] it throws on.
    While an entry is stored compressed the list carries the property name
    [_compressed] of its blob. *)
Theorem reachable_stats_paths (calls : list Call) :
  exists paths,
    getStats_contextFiles (run P new_cache calls) = Return paths /\
    forall k e,
      Map_get k (cache (run P new_cache calls)) = Some e ->
      compressed e = Some true ->
      In "_compressed"%string paths.
Proof.
  assert (Hall : all_entries
            (fun e => files_enumerable e /\
                      (is_compressed e = true ->
                       exists b s, contextFiles e = Packed b /\ _compressed b = VStr s))
            (run P new_cache calls)).
  { apply run_all_entries.
    - apply stored_by_set_enumerable.
    - apply served_by_get_enumerable.
    - intros k e []. }
  destruct (collect_paths_defined (cache (run P new_cache calls)) [])
    as [paths Hpaths]; [intros k e Hin; apply (Hall k e Hin) |].
  exists paths. split; [exact Hpaths |].
  intros k e Hget Hcomp.
  apply (collect_paths_spec _ [] paths (NoDup_nil _) Hpaths). right.
  pose proof (Map_get_In _ _ _ Hget) as Hin.
  destruct (Hall k e Hin) as [_ Hblob].
  destruct Hblob as (b & s & Hcf & Hs); [unfold is_compressed; rewrite Hcomp; reflexivity |].
  exists k, e. eexists. split; [exact Hin |]. split.
  - rewrite Hcf. simpl. rewrite Hs. reflexivity.
  - left. reflexivity.
Qed.

End ReachablePaths.

Lemma stats_paths_distinct_and_complete_witness :
  NoDup ["a.ts"%string].
Proof.
  apply (stats_paths_distinct_and_complete short_lived ["a.ts"%string]).
  reflexivity.
Defined.

Lemma get_leaves_other_keys_witness :
  Map_get "b" (cache (snd (get tiny_platform full_cache "a" 1002 1002 1002 1002)))
  = Map_get "b" (cache full_cache).
Proof.
  apply (proj1 (get_leaves_other_keys tiny_platform full_cache "a" 1002 1002 1002 1002)).
  discriminate.
Defined.

Lemma reachable_stats_paths_witness :
  exists paths,
    getStats_contextFiles
      (run tiny_platform new_cache
           [CallSetAutoCompressionThreshold 64;
            CallSet "k" repetitive_files None None 1000 1000]) = Return paths /\
    In "_compressed"%string paths.
Proof.
  destruct (reachable_stats_paths tiny_platform
              [CallSetAutoCompressionThreshold 64;
               CallSet "k" repetitive_files None None 1000 1000]) as (paths & H1 & H2).
  exists paths. split; [exact H1 |].
  apply (H2 "k"%string
            (stored_by_set tiny_platform low_threshold_cache repetitive_files None None
                           1000 1000)).
  - reflexivity.
  - vm_compute. reflexivity.
Defined.
